(** * Rellume basic blocks: placeholder creation, translation prologue,
      terminator resolution and PHI backfill (src/llbasicblock.cc)

    The C++ methods of [rellume::BasicBlock] mutate three kinds of objects
    through pointers: LLVM instructions (PHI nodes gain incoming values),
    LLVM basic blocks (instructions are appended at the builder's insertion
    point) and the lifter's own [BasicBlock] objects (register file,
    predecessor vector, successor pointers).  The embedding keeps all of
    them in one explicit [Store], addresses them by index, and runs every
    method in a small state-and-failure monad over that store. *)

From Stdlib Require Import ZArith.
From stdpp Require Import base option list gmap.

Open Scope Z_scope.
Open Scope nat_scope.

(** ** The part of LLVM the file uses *)

Module LLVM.

(** [llvm::Type], as far as the facet catalog needs it. *)
Inductive Ty :=
| IntTy (bits : nat)
| FloatTy
| DoubleTy
| VectorTy (lanes : nat) (elt : Ty).

(** [llvm::Value*] that is not null.  [ConstantInt] and [UndefValue] are
    the two subclasses of [llvm::Constant] that occur here (in LLVM's
    class hierarchy [UndefValue] derives from [ConstantData], hence from
    [Constant]); an instruction is named by its identity; [Argument]
    stands for every other value that is neither. *)
Inductive Value :=
| ConstantInt (bits : nat) (v : Z)
| UndefValue (ty : Ty)
| InstRef (id : nat)
| Argument (n : nat).

Inductive Intrinsic := donothing.

(** [llvm::Instruction] objects.  A PHI node carries its incoming
    (value, block) pairs in the order [addIncoming] appended them. *)
Inductive Instruction :=
| PHINode (ty : Ty) (incoming : list (Value * nat))
| SelectInst (cond tv fv : Value)
| CallInst (callee : Intrinsic)
| BranchInst (dest : nat)
| CondBranchInst (cond : Value) (ifTrue ifFalse : nat).

(** [llvm::isa<llvm::Constant>]. *)
Definition isa_Constant (v : Value) : bool :=
  match v with
  | ConstantInt _ _ | UndefValue _ => true
  | InstRef _ | Argument _ => false
  end.

(** [llvm::isa<llvm::UndefValue>]. *)
Definition isa_UndefValue (v : Value) : bool :=
  match v with
  | UndefValue _ => true
  | _ => false
  end.

(** [llvm::Constant::isNullValue]: zero integers (and the null constants
    of other types, none of which is modelled); never an undef. *)
Definition isNullValue (v : Value) : bool :=
  match v with
  | ConstantInt _ z => Z.eqb z 0
  | _ => false
  end.

(** [llvm::Instruction::isTerminator] for the modelled instructions. *)
Definition isTerminator (i : Instruction) : bool :=
  match i with
  | BranchInst _ | CondBranchInst _ _ _ => true
  | _ => false
  end.

(** [builder->getFalse()], [builder->getTrue()]. *)
Definition getFalse : Value := ConstantInt 1 0.
Definition getTrue : Value := ConstantInt 1 1.

End LLVM.
Import LLVM.

(** ** Registers and facets *)

(** Modelled from the spec: the register kinds of rellume/instr.h, which is
    not among the sources (general purpose, vector, instruction
    pointer). *)
Inductive LLRegType := LL_RT_GP64 | LL_RT_XMM | LL_RT_IP.

Record LLReg := mkLLReg { rt : LLRegType; ri : nat }.

(** Modelled from the spec: sixteen general-purpose and sixteen vector
    register slots. *)
Definition LL_RI_GPMax : nat := 16.
Definition LL_RI_XMMMax : nat := 16.

Module Facet.

(** Modelled from the spec: the facet enumeration of the missing register
    file header, with the sub-views the spec names (low 8 and 16 bits,
    zero-extended 32 bits, the full 64 bits, the full vector register and
    two lane groupings). *)
Inductive Value := I8 | I16 | I32 | I64 | I128 | V2F64 | V4F32.

(** Modelled from the spec: the facet catalog, one primitive IR type per
    facet; total over the enumeration. *)
Definition Type_ (f : Value) : Ty :=
  match f with
  | I8 => IntTy 8
  | I16 => IntTy 16
  | I32 => IntTy 32
  | I64 => IntTy 64
  | I128 => IntTy 128
  | V2F64 => VectorTy 2 DoubleTy
  | V4F32 => VectorTy 4 FloatTy
  end.

Definition to_nat (f : Value) : nat :=
  match f with
  | I8 => 0 | I16 => 1 | I32 => 2 | I64 => 3 | I128 => 4
  | V2F64 => 5 | V4F32 => 6
  end.

Definition of_nat (n : nat) : Value :=
  match n with
  | 0 => I8 | 1 => I16 | 2 => I32 | 3 => I64 | 4 => I128
  | 5 => V2F64 | _ => V4F32
  end.

End Facet.

#[global] Instance LLRegType_eq_dec : EqDecision LLRegType.
Proof. solve_decision. Defined.
#[global] Instance LLReg_eq_dec : EqDecision LLReg.
Proof. solve_decision. Defined.
#[global] Instance Facet_eq_dec : EqDecision Facet.Value.
Proof. solve_decision. Defined.

Definition LLRegType_to_nat (t : LLRegType) : nat :=
  match t with LL_RT_GP64 => 0 | LL_RT_XMM => 1 | LL_RT_IP => 2 end.
Definition LLRegType_of_nat (n : nat) : LLRegType :=
  match n with 0 => LL_RT_GP64 | 1 => LL_RT_XMM | _ => LL_RT_IP end.

#[global] Instance LLRegType_countable : Countable LLRegType.
Proof.
  apply (inj_countable' LLRegType_to_nat LLRegType_of_nat).
  by intros [].
Defined.
#[global] Instance LLReg_countable : Countable LLReg.
Proof.
  apply (inj_countable' (λ r, (rt r, ri r)) (λ p, mkLLReg p.1 p.2)).
  by intros [].
Defined.
#[global] Instance Facet_countable : Countable Facet.Value.
Proof.
  apply (inj_countable' Facet.to_nat Facet.of_nat).
  by intros [].
Defined.

(** ** The register file *)

Module RegFile.

(** Modelled from the spec: the register file class lives in a header and
    a source file that are not among the sources.  One map per block keyed
    by (register, facet), plus the flat flag array. *)
Record t := mk {
  regs : gmap (LLReg * Facet.Value) Value;
  flags : gmap nat Value
}.

Definition empty : t := mk ∅ ∅.

(** Modelled from the spec: [Read(register, facet)] returns the last
    value written for that exact pair; an un-materialized facet has no
    value (the caller fails fast). *)
Definition GetReg (rf : t) (reg : LLReg) (facet : Facet.Value)
  : option Value :=
  regs rf !! (reg, facet).

(** Modelled from the spec: [Write(register, facet, value, invalidate)].
    A plain write stores the value for this facet only; an invalidating
    write also drops every other cached facet of the same register. *)
Definition SetReg (rf : t) (reg : LLReg) (facet : Facet.Value)
    (value : Value) (clearOthers : bool) : t :=
  let kept :=
    if clearOthers
    then filter (λ kv, kv.1.1 ≠ reg) (regs rf)
    else regs rf in
  mk (<[(reg, facet) := value]> kept) (flags rf).

(** Modelled from the spec: [ReadFlag] and [WriteFlag], flat, no
    aliasing. *)
Definition GetFlag (rf : t) (i : nat) : option Value := flags rf !! i.

Definition SetFlag (rf : t) (i : nat) (value : Value) : t :=
  mk (regs rf) (<[i := value]> (flags rf)).

End RegFile.

(** ** Basic blocks and the store *)

(** A [BasicBlock*] is the index of the object in the store. *)
Abbreviation BlockId := nat.

(** Modelled from the spec: the facet map behind [phis_gp[i]] and
    [phis_sse[i]] (declared in the missing headers): the facets that need
    an entry placeholder, in iteration order, each with the [llvm::Value*]
    stored for it ([None] is the null pointer). *)
Definition PhiEntry := list (Facet.Value * option Value).

(** [entry.facets()] *)
Definition facets (e : PhiEntry) : list Facet.Value := e.*1.

(** [entry.at(facet)], read *)
Fixpoint at_ (e : PhiEntry) (facet : Facet.Value) : option (option Value) :=
  match e with
  | [] => None
  | (f, v) :: e' => if decide (f = facet) then Some v else at_ e' facet
  end.

(** [entry.at(facet) = v] *)
Fixpoint set_at (e : PhiEntry) (facet : Facet.Value) (v : option Value)
  : PhiEntry :=
  match e with
  | [] => []
  | (f, w) :: e' =>
      if decide (f = facet) then (f, v) :: e' else (f, w) :: set_at e' facet v
  end.

(** The data members of [rellume::BasicBlock].  The class is declared in
    a header that is not among the sources; the members are the ones the
    member functions use, at the types they use them at ([phiFlags] holds
    [llvm::PHINode*], the facet maps hold [llvm::Value*]). *)
Record BasicBlock := mkBasicBlock {
  llvmBB : nat;
  regfile : RegFile.t;
  nextBranch : option BlockId;
  nextFallThrough : option BlockId;
  preds : list BlockId;
  phis_gp : list PhiEntry;
  phis_sse : list PhiEntry;
  phiFlags : list (option nat);
  new_rip : option Value
}.

Definition set_regfile (rf : RegFile.t) (b : BasicBlock) : BasicBlock :=
  mkBasicBlock (llvmBB b) rf (nextBranch b) (nextFallThrough b) (preds b)
    (phis_gp b) (phis_sse b) (phiFlags b) (new_rip b).
Definition set_nextBranch (n : option BlockId) (b : BasicBlock) : BasicBlock :=
  mkBasicBlock (llvmBB b) (regfile b) n (nextFallThrough b) (preds b)
    (phis_gp b) (phis_sse b) (phiFlags b) (new_rip b).
Definition set_nextFallThrough (n : option BlockId) (b : BasicBlock)
  : BasicBlock :=
  mkBasicBlock (llvmBB b) (regfile b) (nextBranch b) n (preds b)
    (phis_gp b) (phis_sse b) (phiFlags b) (new_rip b).
Definition set_preds (p : list BlockId) (b : BasicBlock) : BasicBlock :=
  mkBasicBlock (llvmBB b) (regfile b) (nextBranch b) (nextFallThrough b) p
    (phis_gp b) (phis_sse b) (phiFlags b) (new_rip b).
Definition set_phis_gp (p : list PhiEntry) (b : BasicBlock) : BasicBlock :=
  mkBasicBlock (llvmBB b) (regfile b) (nextBranch b) (nextFallThrough b)
    (preds b) p (phis_sse b) (phiFlags b) (new_rip b).
Definition set_phis_sse (p : list PhiEntry) (b : BasicBlock) : BasicBlock :=
  mkBasicBlock (llvmBB b) (regfile b) (nextBranch b) (nextFallThrough b)
    (preds b) (phis_gp b) p (phiFlags b) (new_rip b).
Definition set_phiFlags (p : list (option nat)) (b : BasicBlock) : BasicBlock :=
  mkBasicBlock (llvmBB b) (regfile b) (nextBranch b) (nextFallThrough b)
    (preds b) (phis_gp b) (phis_sse b) p (new_rip b).
Definition set_new_rip (v : option Value) (b : BasicBlock) : BasicBlock :=
  mkBasicBlock (llvmBB b) (regfile b) (nextBranch b) (nextFallThrough b)
    (preds b) (phis_gp b) (phis_sse b) (phiFlags b) v.

(** What [printf] wrote. *)
Inductive Message :=
| CouldNotHandle (addr : Z).

(** Everything the methods can reach: the LLVM objects, the shared
    [LLState] ([state.builder]'s insertion block and [state.regfile]), the
    [BasicBlock] objects and the standard output. *)
Record Store := mkStore {
  insts : list Instruction;
  llvm_bbs : list (list nat);
  insert_point : option nat;
  state_regfile : option BlockId;
  blocks : list BasicBlock;
  output : list Message
}.

Definition set_insts (x : list Instruction) (s : Store) : Store :=
  mkStore x (llvm_bbs s) (insert_point s) (state_regfile s) (blocks s)
    (output s).
Definition set_llvm_bbs (x : list (list nat)) (s : Store) : Store :=
  mkStore (insts s) x (insert_point s) (state_regfile s) (blocks s)
    (output s).
Definition set_insert_point (x : option nat) (s : Store) : Store :=
  mkStore (insts s) (llvm_bbs s) x (state_regfile s) (blocks s) (output s).
Definition set_state_regfile (x : option BlockId) (s : Store) : Store :=
  mkStore (insts s) (llvm_bbs s) (insert_point s) x (blocks s) (output s).
Definition set_blocks (x : list BasicBlock) (s : Store) : Store :=
  mkStore (insts s) (llvm_bbs s) (insert_point s) (state_regfile s) x
    (output s).
Definition set_output (x : list Message) (s : Store) : Store :=
  mkStore (insts s) (llvm_bbs s) (insert_point s) (state_regfile s)
    (blocks s) x.

(** ** The monad of the methods *)

(** Ways a method stops without returning. *)
Inductive Failure :=
| AssertionFailed      (* an [assert] of the source does not hold *)
| NullDereference      (* a member access through a null pointer *)
| InvalidPointer       (* a [BasicBlock*] or LLVM pointer to no object *)
| BadCast              (* [llvm::cast<>] to a class the value is not of *)
| MissingFacet         (* a register file read of a facet with no value *)
| OutOfBounds          (* an index outside an array *)
| Unreachable.         (* [warn_if_reached] *)

(** A method either returns a value and the store it leaves, or stops
    with the store as it stood at that point. *)
Inductive Result (A : Type) :=
| Done (a : A) (s : Store)
| Stop (e : Failure) (s : Store).
Arguments Done {A} a s.
Arguments Stop {A} e s.

Definition M (A : Type) : Type := Store → Result A.

Definition ret {A} (a : A) : M A := λ s, Done a s.

Definition bind {A B} (m : M A) (k : A → M B) : M B :=
  λ s, match m s with
       | Done a s' => k a s'
       | Stop e s' => Stop e s'
       end.

Definition stop {A} (e : Failure) : M A := λ s, Stop e s.

Notation "'let!' x ':=' m 'in' k" := (bind m (λ x, k))
  (at level 10, x name, m at level 100, k at level 200).
Notation "m ';;;' k" := (bind m (λ _, k))
  (at level 100, k at level 200, right associativity).

Definition get : M Store := λ s, Done s s.
Definition modify (f : Store → Store) : M unit := λ s, Done tt (f s).

(** [Some] is returned, [None] stops with the given failure. *)
Definition orStop {A} (e : Failure) (o : option A) : M A :=
  match o with
  | Some a => ret a
  | None => stop e
  end.

(** [assert(c)] *)
Definition assert_ (c : bool) : M unit :=
  if c then ret tt else stop AssertionFailed.

(** [for (x : l) body(x)] *)
Fixpoint for_ {A} (l : list A) (body : A → M unit) : M unit :=
  match l with
  | [] => ret tt
  | x :: l' => body x ;;; for_ l' body
  end.

(** Access to a [BasicBlock] object through its pointer. *)
Definition block (b : BlockId) : M BasicBlock :=
  let! s := get in orStop InvalidPointer (blocks s !! b).

Definition update_block (b : BlockId) (f : BasicBlock → BasicBlock)
  : M unit :=
  let! _ := block b in
  modify (λ s, set_blocks (alter f b (blocks s)) s).

(** A pointer that may be null, dereferenced. *)
Definition deref {A} (p : option A) : M A := orStop NullDereference p.

(** ** The IR builder *)

(** [builder->Insert(i)]: the instruction is created and, when the builder
    has an insertion block, appended to it. *)
Definition Insert (i : Instruction) : M nat :=
  let! s := get in
  let id := length (insts s) in
  modify (set_insts (insts s ++ [i])) ;;;
  match insert_point s with
  | Some bb =>
      let! body := orStop InvalidPointer (llvm_bbs s !! bb) in
      modify (set_llvm_bbs (<[bb := body ++ [id]]> (llvm_bbs s))) ;;;
      ret id
  | None => ret id
  end.

Definition CreatePHI (ty : Ty) (numReserved : nat) : M nat :=
  Insert (PHINode ty []).
Definition CreateCall (callee : Intrinsic) : M nat :=
  Insert (CallInst callee).
Definition CreateBr (dest : nat) : M nat :=
  Insert (BranchInst dest).
Definition CreateCondBr (cond : Value) (ifTrue ifFalse : nat) : M nat :=
  Insert (CondBranchInst cond ifTrue ifFalse).

(** [phi->addIncoming(value, bb)] *)
Definition addIncoming (phi : nat) (value : Value) (bb : nat) : M unit :=
  let! s := get in
  match insts s !! phi with
  | Some (PHINode ty incoming) =>
      modify
        (set_insts (<[phi := PHINode ty (incoming ++ [(value, bb)])]> (insts s)))
  | Some _ => stop BadCast
  | None => stop InvalidPointer
  end.

(** [llvm::cast<llvm::PHINode>(v)]: asserts on a null pointer and on a
    value of another class. *)
Definition cast_PHINode (v : option Value) : M nat :=
  let! s := get in
  match v with
  | Some (InstRef id) =>
      match insts s !! id with
      | Some (PHINode _ _) => ret id
      | Some _ => stop BadCast
      | None => stop InvalidPointer
      end
  | _ => stop BadCast
  end.

(** [llvm::dyn_cast<llvm::SelectInst>(v)], giving the select's operands. *)
Definition dyn_cast_SelectInst (v : Value)
  : M (option (Value * Value * Value)) :=
  let! s := get in
  match v with
  | InstRef id =>
      match insts s !! id with
      | Some (SelectInst c t f) => ret (Some (c, t, f))
      | Some _ => ret None
      | None => stop InvalidPointer
      end
  | _ => ret None
  end.

(** ** The methods of [BasicBlock] *)

(** Modelled from the spec: [SetCurrent], a member defined in the missing
    class header.  It makes this block's register file the live one of the
    shared state and sets the builder's insertion point to this block's
    LLVM block. *)
Definition SetCurrent (b : BlockId) : M unit :=
  let! blk := block b in
  modify (λ s, set_insert_point (Some (llvmBB blk))
                 (set_state_regfile (Some b) s)).

(** [regfile.SetReg(reg, facet, value, clearOthers)] on block [b]. *)
Definition regfile_SetReg (b : BlockId) (reg : LLReg) (facet : Facet.Value)
    (value : Value) (clearOthers : bool) : M unit :=
  update_block b
    (λ blk, set_regfile
              (RegFile.SetReg (regfile blk) reg facet value clearOthers) blk).

(** [regfile.SetFlag(i, value)] on block [b]. *)
Definition regfile_SetFlag (b : BlockId) (i : nat) (value : Value) : M unit :=
  update_block b
    (λ blk, set_regfile (RegFile.SetFlag (regfile blk) i value) blk).

(** [pred->regfile.GetReg(reg, facet)] *)
Definition regfile_GetReg (b : BlockId) (reg : LLReg) (facet : Facet.Value)
  : M Value :=
  let! blk := block b in
  orStop MissingFacet (RegFile.GetReg (regfile blk) reg facet).

(** [pred->regfile.GetFlag(i)] *)
Definition regfile_GetFlag (b : BlockId) (i : nat) : M Value :=
  let! blk := block b in
  orStop MissingFacet (RegFile.GetFlag (regfile blk) i).

(** [phis[i]] of block [b], for [phis] one of the two arrays. *)
Definition phis_entry (phis : BasicBlock → list PhiEntry) (b : BlockId)
    (i : nat) : M PhiEntry :=
  let! blk := block b in orStop OutOfBounds (phis blk !! i).

(** [phis[i].at(facet)], read. *)
Definition phis_at (phis : BasicBlock → list PhiEntry) (b : BlockId)
    (i : nat) (facet : Facet.Value) : M (option Value) :=
  let! entry := phis_entry phis b i in
  orStop OutOfBounds (at_ entry facet).

(** [phis[i].at(facet) = v] *)
Definition phis_store (phis : BasicBlock → list PhiEntry)
    (set_phis : list PhiEntry → BasicBlock → BasicBlock)
    (b : BlockId) (i : nat) (facet : Facet.Value) (v : Value) : M unit :=
  let! _ := phis_at phis b i facet in
  update_block b
    (λ blk, set_phis (alter (λ e, set_at e facet (Some v)) i (phis blk)) blk).

(** [phiFlags[i]], read. *)
Definition phiFlags_at (b : BlockId) (i : nat) : M (option nat) :=
  let! blk := block b in orStop OutOfBounds (phiFlags blk !! i).

(** [phiFlags[i] = phi] *)
Definition phiFlags_store (b : BlockId) (i : nat) (phi : nat) : M unit :=
  let! _ := phiFlags_at b i in
  update_block b
    (λ blk, set_phiFlags (<[i := Some phi]> (phiFlags blk)) blk).

(** [other->llvmBB] *)
Definition block_llvmBB (b : BlockId) : M nat :=
  let! blk := block b in ret (llvmBB blk).

(** A decoded instruction, as far as this file reads it. *)
Record LLInstr := mkLLInstr {
  addr : Z;
  len : Z;
  type_ : nat
}.

(** [uintptr_t] arithmetic on the 64-bit host. *)
Definition wrap64 (z : Z) : Z := (z mod 2 ^ 64)%Z.

(** [printf] of a diagnostic. *)
Definition printf (m : Message) : M unit :=
  modify (λ s, set_output (output s ++ [m]) s).

(** Modelled from the spec: the macro [warn_if_reached] of the missing
    llcommon-internal.h.  The spec makes the unrecognized opcode a fatal,
    unreachable-code condition that ends the lifting of the instruction
    stream, so the macro does not return. *)
Definition warn_if_reached : M unit := stop Unreachable.

Section Lifter.

(** The number of condition-code flags, [RFLAG_Max] of the missing
    register file header. *)
Variable RFLAG_Max : nat.

(** The table of rellume/opcodes.inc, which is not among the sources:
    the handler of each recognized opcode.  A handler gets the instruction
    and works on the shared state with this block current. *)
Variable opcodes : nat → option (LLInstr → BlockId → M unit).

(** [void BasicBlock::AddPhis()] *)
Definition AddPhis (b : BlockId) : M unit :=
  SetCurrent b ;;;
  for_ (seq 0 LL_RI_GPMax) (λ i,
    let! entry := phis_entry phis_gp b i in
    for_ (facets entry) (λ facet,
      let ty := Facet.Type_ facet in
      let! phiNode := CreatePHI ty 0 in
      regfile_SetReg b (mkLLReg LL_RT_GP64 i) facet (InstRef phiNode) false ;;;
      phis_store phis_gp set_phis_gp b i facet (InstRef phiNode))) ;;;
  for_ (seq 0 LL_RI_XMMMax) (λ i,
    let! entry := phis_entry phis_sse b i in
    for_ (facets entry) (λ facet,
      let ty := Facet.Type_ facet in
      let! phiNode := CreatePHI ty 0 in
      regfile_SetReg b (mkLLReg LL_RT_XMM i) facet (InstRef phiNode) false ;;;
      phis_store phis_sse set_phis_sse b i facet (InstRef phiNode))) ;;;
  for_ (seq 0 RFLAG_Max) (λ i,
    let! phiNode := CreatePHI (IntTy 1) 0 in
    regfile_SetFlag b i (InstRef phiNode) ;;;
    phiFlags_store b i phiNode).

(** [void BasicBlock::AddBranches(BasicBlock* branch, BasicBlock*
    fallThrough)] *)
Definition AddBranches (b : BlockId) (branch fallThrough : option BlockId)
  : M unit :=
  match branch with
  | Some br =>
      update_block br (λ blk, set_preds (preds blk ++ [b]) blk) ;;;
      update_block b (set_nextBranch (Some br))
  | None => ret tt
  end ;;;
  match fallThrough with
  | Some ft =>
      update_block ft (λ blk, set_preds (preds blk ++ [b]) blk) ;;;
      update_block b (set_nextFallThrough (Some ft))
  | None => ret tt
  end.

(** The statements of [AddInst] before the [switch]: the new instruction
    pointer, the separator and the default value of [new_rip].  (The
    declaration of the [donothing] intrinsic in the module has no effect
    on the modelled store.) *)
Definition AddInst_prologue (b : BlockId) (instr : LLInstr) : M unit :=
  SetCurrent b ;;;
  let rip := wrap64 (addr instr + len instr) in
  let ripValue := ConstantInt 64 rip in
  regfile_SetReg b (mkLLReg LL_RT_IP 0) Facet.I64 ripValue true ;;;
  CreateCall donothing ;;;
  let! sel := Insert (SelectInst getFalse ripValue ripValue) in
  update_block b (set_new_rip (Some (InstRef sel))).

(** [void BasicBlock::AddInst(LLInstr* instr)] *)
Definition AddInst (b : BlockId) (instr : LLInstr) : M unit :=
  AddInst_prologue b instr ;;;
  match opcodes (type_ instr) with
  | Some handler => handler instr b
  | None =>
      printf (CouldNotHandle (addr instr)) ;;;
      warn_if_reached
  end.

(** [successor->llvmBB] for a successor pointer that may be null. *)
Definition successor_llvmBB (p : option BlockId) : M nat :=
  let! succ := deref p in
  block_llvmBB succ.

(** [void BasicBlock::Terminate()] *)
Definition Terminate (b : BlockId) : M unit :=
  SetCurrent b ;;;
  let! this := block b in
  match new_rip this with
  | None =>
      let! dest := successor_llvmBB (nextFallThrough this) in
      CreateBr dest ;;; ret tt
  | Some v =>
      let! select := dyn_cast_SelectInst v in
      match select with
      | Some (cond, _, _) =>
          if isa_Constant cond then
            assert_ (bool_decide (is_Some (nextBranch this))
                     || bool_decide (is_Some (nextFallThrough this))) ;;;
            if isNullValue cond then
              let! dest := successor_llvmBB (nextFallThrough this) in
              CreateBr dest ;;; ret tt
            else
              let! dest := successor_llvmBB (nextBranch this) in
              CreateBr dest ;;; ret tt
          else if negb (isa_UndefValue cond) then
            assert_ (bool_decide (is_Some (nextBranch this))
                     && bool_decide (is_Some (nextFallThrough this))) ;;;
            let! ifTrue := successor_llvmBB (nextBranch this) in
            let! ifFalse := successor_llvmBB (nextFallThrough this) in
            CreateCondBr cond ifTrue ifFalse ;;; ret tt
          else ret tt
      | None =>
          (* stub *)
          ret tt
      end
  end.

(** The body of the loop over the predecessors in [FillPhis]. *)
Definition FillPhis_pred (b pred : BlockId) : M unit :=
  for_ (seq 0 LL_RI_GPMax) (λ j,
    let! entry := phis_entry phis_gp b j in
    for_ (facets entry) (λ facet,
      let! stored := phis_at phis_gp b j facet in
      let! phi := cast_PHINode stored in
      let! value := regfile_GetReg pred (mkLLReg LL_RT_GP64 j) facet in
      let! bb := block_llvmBB pred in
      addIncoming phi value bb)) ;;;
  for_ (seq 0 LL_RI_XMMMax) (λ j,
    let! entry := phis_entry phis_sse b j in
    for_ (facets entry) (λ facet,
      let! stored := phis_at phis_sse b j facet in
      let! phi := cast_PHINode stored in
      let! value := regfile_GetReg pred (mkLLReg LL_RT_XMM j) facet in
      let! bb := block_llvmBB pred in
      addIncoming phi value bb)) ;;;
  for_ (seq 0 RFLAG_Max) (λ j,
    let! value := regfile_GetFlag pred j in
    let! phi := let! p := phiFlags_at b j in deref p in
    let! bb := block_llvmBB pred in
    addIncoming phi value bb).

(** [void BasicBlock::FillPhis()] *)
Definition FillPhis (b : BlockId) : M unit :=
  modify (set_state_regfile None) ;;;
  let! this := block b in
  for_ (preds this) (FillPhis_pred b).

End Lifter.

(** ** Building stores *)

Definition empty_store : Store := mkStore [] [] None None [] [].

(** Modelled from the spec: the constructor, which is not among the
    sources.  A block is created empty by the driver: a new LLVM block, an
    empty register file, no edges, no branch-selector, and the
    facet-requirement sets [gp] and [sse] (one facet list per register)
    with null placeholders. *)
Definition new_BasicBlock (RFLAG_Max : nat) (gp sse : list (list Facet.Value))
  : M BlockId :=
  let! s := get in
  let bb := length (llvm_bbs s) in
  let b := length (blocks s) in
  let entry (fs : list Facet.Value) : PhiEntry := (λ f, (f, None)) <$> fs in
  modify (set_llvm_bbs (llvm_bbs s ++ [[]])) ;;;
  modify (set_blocks
            (blocks s ++
               [mkBasicBlock bb RegFile.empty None None []
                  (entry <$> gp) (entry <$> sse)
                  (replicate RFLAG_Max None) None])) ;;;
  ret b.

(** The store a computation leaves, whether it returned or stopped. *)
Definition final {A} (r : Result A) : Store :=
  match r with
  | Done _ s => s
  | Stop _ s => s
  end.

(** ** Vocabulary of the statements *)

(** The store after [SetCurrent] on block [b]. *)
Definition made_current (b : BlockId) (blk : BasicBlock) (s : Store) : Store :=
  set_insert_point (Some (llvmBB blk)) (set_state_regfile (Some b) s).

(** Between [s] and [s'] exactly the instructions [new] were created, in
    this order, and appended to the end of LLVM block [bb]; no existing
    instruction and no other LLVM block changed. *)
Definition emitted (s s' : Store) (bb : nat) (new : list Instruction) : Prop :=
  insts s' = insts s ++ new ∧
  ∃ body, llvm_bbs s !! bb = Some body ∧
    llvm_bbs s' =
      <[bb := body ++ seq (length (insts s)) (length new)]> (llvm_bbs s).

(** The predecessor vector of block [x], if [x] is a block. *)
Definition preds_of (s : Store) (x : BlockId) : option (list BlockId) :=
  preds <$> blocks s !! x.

(** What one call [b->AddBranches(branch, fallThrough)] appends to the
    predecessor vector of block [x]. *)
Definition edge_entries (b : BlockId) (branch fallThrough : option BlockId)
    (x : BlockId) : list BlockId :=
  (if decide (branch = Some x) then [b] else []) ++
  (if decide (fallThrough = Some x) then [b] else []).

Definition add_pred (b : BlockId) (blk : BasicBlock) : BasicBlock :=
  set_preds (preds blk ++ [b]) blk.

(** The block objects after [b->AddBranches(branch, fallThrough)]. *)
Definition AddBranches_blocks (b : BlockId) (branch ft : option BlockId)
    (l : list BasicBlock) : list BasicBlock :=
  let l1 := match branch with
            | Some br =>
                alter (set_nextBranch (Some br)) b (alter (add_pred b) br l)
            | None => l
            end in
  match ft with
  | Some x => alter (set_nextFallThrough (Some x)) b (alter (add_pred b) x l1)
  | None => l1
  end.

(** The operands of the select instruction a value points to, if it
    points to one. *)
Definition select_operands (s : Store) (v : Value)
  : option (Value * Value * Value) :=
  match v with
  | InstRef id =>
      match insts s !! id with
      | Some (SelectInst c t f) => Some (c, t, f)
      | _ => None
      end
  | _ => None
  end.

(** A value pointer that points to an object of the store. *)
Definition value_valid (s : Store) (v : Value) : Prop :=
  match v with
  | InstRef id => is_Some (insts s !! id)
  | _ => True
  end.

(** [Terminate] on block [b] returns, having emitted exactly the
    instructions [new] at the end of the block's LLVM block and changed
    nothing else but the current-block pointers of the shared state. *)
Definition Terminate_emits (b : BlockId) (s : Store) (new : list Instruction)
  : Prop :=
  ∃ blk s', blocks s !! b = Some blk ∧
    Terminate b s = Done tt s' ∧
    emitted s s' (llvmBB blk) new ∧
    blocks s' = blocks s ∧ output s' = output s.

(** The constant [ripValue] of [AddInst]: the address after the
    instruction, as a 64-bit integer constant. *)
Definition next_rip (instr : LLInstr) : Value :=
  ConstantInt 64 (wrap64 (addr instr + len instr)).

(** The instructions [AddInst] emits before the [switch]. *)
Definition prologue_insts (instr : LLInstr) : list Instruction :=
  [CallInst donothing; SelectInst getFalse (next_rip instr) (next_rip instr)].

(** The store in which [AddInst] reaches the [switch]. *)
Definition at_switch (b : BlockId) (blk : BasicBlock) (body : list nat)
    (instr : LLInstr) (s : Store) : Store :=
  let n := length (insts s) in
  mkStore
    (insts s ++ prologue_insts instr)
    (<[llvmBB blk := body ++ [n; S n]]> (llvm_bbs s))
    (Some (llvmBB blk))
    (Some b)
    (alter
       (λ blk,
          set_new_rip (Some (InstRef (S n)))
            (set_regfile
               (RegFile.SetReg (regfile blk) (mkLLReg LL_RT_IP 0) Facet.I64
                  (next_rip instr) true) blk))
       b (blocks s))
    (output s).

(** Only LLVM instructions differ between the two stores: the LLVM
    blocks, the shared state, the block objects and the output agree. *)
Definition only_insts_change (s s' : Store) : Prop :=
  llvm_bbs s' = llvm_bbs s ∧ insert_point s' = insert_point s ∧
  state_regfile s' = state_regfile s ∧ blocks s' = blocks s ∧
  output s' = output s.

(** A computation relates the store it starts from to the store it
    leaves, on return and on failure alike. *)
Definition frames (R : Store → Store → Prop) {A} (m : M A) : Prop :=
  ∀ s, R s (final (m s)).

(** [*state.regfile]: the register file behind the live handle of the
    shared state. *)
Definition live_regfile (s : Store) : option RegFile.t :=
  b ← state_regfile s; regfile <$> blocks s !! b.

(** ** Placeholder positions *)

(** A position that can hold a merge placeholder: a facet of a register,
    or a flag. *)
Inductive Slot :=
| SlotReg (reg : LLReg) (facet : Facet.Value)
| SlotFlag (i : nat).

#[global] Instance Slot_eq_dec : EqDecision Slot.
Proof. solve_decision. Defined.
#[global] Instance Ty_eq_dec : EqDecision Ty.
Proof. solve_decision. Defined.
#[global] Instance Value_eq_dec : EqDecision Value.
Proof. solve_decision. Defined.

(** The array of facet maps a register kind has in a block (the
    instruction pointer has none). *)
Definition kind_phis (t : LLRegType) : BasicBlock → list PhiEntry :=
  match t with
  | LL_RT_GP64 => phis_gp
  | LL_RT_XMM => phis_sse
  | LL_RT_IP => λ _, []
  end.

Definition kind_set_phis (t : LLRegType)
  : list PhiEntry → BasicBlock → BasicBlock :=
  match t with
  | LL_RT_GP64 => set_phis_gp
  | LL_RT_XMM => set_phis_sse
  | LL_RT_IP => λ _ blk, blk
  end.

(** The positions one of the register loops of [AddPhis] and [FillPhis]
    visits, in the order it visits them. *)
Definition reg_slots (t : LLRegType) (n : nat) (phis : list PhiEntry)
  : list Slot :=
  i ← seq 0 n;
  entry ← option_list (phis !! i);
  SlotReg (mkLLReg t i) <$> facets entry.

(** All placeholder positions of a block, in the order of the three
    loops. *)
Definition slots (RFLAG_Max : nat) (blk : BasicBlock) : list Slot :=
  reg_slots LL_RT_GP64 LL_RI_GPMax (phis_gp blk) ++
  reg_slots LL_RT_XMM LL_RI_XMMMax (phis_sse blk) ++
  (SlotFlag <$> seq 0 RFLAG_Max).

(** The IR type of the placeholder of a position: the catalog type of
    the facet, one bit for a flag. *)
Definition slot_type (x : Slot) : Ty :=
  match x with
  | SlotReg _ facet => Facet.Type_ facet
  | SlotFlag _ => IntTy 1
  end.

(** The pointer a block stores for a position ([phis_gp[i].at(facet)],
    [phis_sse[i].at(facet)], [phiFlags[i]]), if it is not null. *)
Definition placeholder (blk : BasicBlock) (x : Slot) : option Value :=
  match x with
  | SlotReg reg facet =>
      entry ← kind_phis (rt reg) blk !! ri reg; mjoin (at_ entry facet)
  | SlotFlag i => InstRef <$> mjoin (phiFlags blk !! i)
  end.

(** What a register file holds for a position. *)
Definition read_slot (rf : RegFile.t) (x : Slot) : option Value :=
  match x with
  | SlotReg reg facet => RegFile.GetReg rf reg facet
  | SlotFlag i => RegFile.GetFlag rf i
  end.

(** What the C++ types guarantee of a block object: the sizes of the
    three arrays, and facet maps with one entry per facet. *)
Definition wf_block (RFLAG_Max : nat) (blk : BasicBlock) : Prop :=
  length (phis_gp blk) = LL_RI_GPMax ∧
  length (phis_sse blk) = LL_RI_XMMMax ∧
  length (phiFlags blk) = RFLAG_Max ∧
  Forall (λ e, NoDup (facets e)) (phis_gp blk) ∧
  Forall (λ e, NoDup (facets e)) (phis_sse blk).

#[global] Instance wf_block_dec n blk : Decision (wf_block n blk).
Proof. unfold wf_block. apply _. Defined.

(** One iteration of a loop of [AddPhis], for any position. *)
Definition install_placeholder (b : BlockId) (x : Slot) : M unit :=
  match x with
  | SlotReg reg facet =>
      let ty := Facet.Type_ facet in
      let! phiNode := CreatePHI ty 0 in
      regfile_SetReg b reg facet (InstRef phiNode) false ;;;
      phis_store (kind_phis (rt reg)) (kind_set_phis (rt reg)) b (ri reg)
        facet (InstRef phiNode)
  | SlotFlag i =>
      let! phiNode := CreatePHI (IntTy 1) 0 in
      regfile_SetFlag b i (InstRef phiNode) ;;;
      phiFlags_store b i phiNode
  end.

(** One iteration of a loop of [FillPhis], for any position. *)
Definition backfill (b pred : BlockId) (x : Slot) : M unit :=
  match x with
  | SlotReg reg facet =>
      let! stored := phis_at (kind_phis (rt reg)) b (ri reg) facet in
      let! phi := cast_PHINode stored in
      let! value := regfile_GetReg pred reg facet in
      let! bb := block_llvmBB pred in
      addIncoming phi value bb
  | SlotFlag j =>
      let! value := regfile_GetFlag pred j in
      let! phi := let! p := phiFlags_at b j in deref p in
      let! bb := block_llvmBB pred in
      addIncoming phi value bb
  end.

(** A position of the block: a facet in the facet map of a register that
    has one, or a flag index inside [phiFlags]. *)
Definition slot_exists (blk : BasicBlock) (x : Slot) : Prop :=
  match x with
  | SlotReg reg facet =>
      ∃ entry, kind_phis (rt reg) blk !! ri reg = Some entry ∧
               facet ∈ facets entry
  | SlotFlag i => i < length (phiFlags blk)
  end.

(** The store [s], reached from [s0] inside [AddPhis] on block [b] after
    the positions [done] were visited: the k-th of them holds the k-th
    instruction created, a PHI node of its type without incoming values,
    both in the block's placeholder arrays and in its register file;
    every other position, every other block and the rest of the store
    are as in [s0]. *)
Definition phis_installed (s0 : Store) (b : BlockId) (blk0 : BasicBlock)
    (done : list Slot) (s : Store) : Prop :=
  ∃ blk,
    blocks s !! b = Some blk ∧
    (∀ x, x ≠ b → blocks s !! x = blocks s0 !! x) ∧
    insert_point s = Some (llvmBB blk0) ∧
    state_regfile s = Some b ∧
    output s = output s0 ∧
    emitted s0 s (llvmBB blk0) ((λ x, PHINode (slot_type x) []) <$> done) ∧
    llvmBB blk = llvmBB blk0 ∧
    nextBranch blk = nextBranch blk0 ∧
    nextFallThrough blk = nextFallThrough blk0 ∧
    preds blk = preds blk0 ∧
    new_rip blk = new_rip blk0 ∧
    facets <$> phis_gp blk = facets <$> phis_gp blk0 ∧
    facets <$> phis_sse blk = facets <$> phis_sse blk0 ∧
    length (phiFlags blk) = length (phiFlags blk0) ∧
    (∀ k x, done !! k = Some x →
       placeholder blk x = Some (InstRef (length (insts s0) + k)) ∧
       read_slot (regfile blk) x = Some (InstRef (length (insts s0) + k))) ∧
    (∀ x, x ∉ done →
       placeholder blk x = placeholder blk0 x ∧
       read_slot (regfile blk) x = read_slot (regfile blk0) x).

(** The positions of register [i] of kind [t] in the facet maps
    [phis]. *)
Definition slots_of (t : LLRegType) (phis : list PhiEntry) (i : nat)
  : list Slot :=
  entry ← option_list (phis !! i); SlotReg (mkLLReg t i) <$> facets entry.

(** The positions that get a placeholder: the facets in the facet maps of
    the general-purpose and vector registers (the facet-requirement set
    of the block) and every flag index. *)
Definition required (RFLAG_Max : nat) (blk : BasicBlock) (x : Slot) : Prop :=
  match x with
  | SlotReg reg facet =>
      (rt reg = LL_RT_GP64 ∧ ri reg < LL_RI_GPMax ∨
       rt reg = LL_RT_XMM ∧ ri reg < LL_RI_XMMMax) ∧
      ∃ entry, kind_phis (rt reg) blk !! ri reg = Some entry ∧
               facet ∈ facets entry
  | SlotFlag i => i < RFLAG_Max
  end.

(** The three loops that [AddPhis] and [FillPhis] share, with the loop
    body as a parameter. *)
Definition slot_loops (RFLAG_Max : nat) (b : BlockId) (step : Slot → M unit)
  : M unit :=
  for_ (seq 0 LL_RI_GPMax) (λ i,
    let! entry := phis_entry phis_gp b i in
    for_ (facets entry) (λ facet,
      step (SlotReg (mkLLReg LL_RT_GP64 i) facet))) ;;;
  for_ (seq 0 LL_RI_XMMMax) (λ i,
    let! entry := phis_entry phis_sse b i in
    for_ (facets entry) (λ facet,
      step (SlotReg (mkLLReg LL_RT_XMM i) facet))) ;;;
  for_ (seq 0 RFLAG_Max) (λ i, step (SlotFlag i)).

(** ** Backfill *)

(** The input predecessor [p] contributes to the placeholder of position
    [x]: the value its register file holds for the position, paired with
    its LLVM block. *)
Definition incoming_from (s : Store) (x : Slot) (p : BlockId)
  : option (Value * nat) :=
  pblk ← blocks s !! p;
  v ← read_slot (regfile pblk) x;
  Some (v, llvmBB pblk).

(** The incoming (value, block) pairs of the PHI node a value points
    to. *)
Definition incoming (s : Store) (v : Value) : option (list (Value * nat)) :=
  match v with
  | InstRef n =>
      match insts s !! n with
      | Some (PHINode _ inc) => Some inc
      | _ => None
      end
  | _ => None
  end.

(** The placeholders of the block are PHI nodes without incoming values,
    one node per position, as [AddPhis] creates them. *)
Definition placeholders_fresh (RFLAG_Max : nat) (s : Store)
    (blk : BasicBlock) : Prop :=
  Forall (λ x, placeholder blk x ≫= incoming s = Some [])
    (slots RFLAG_Max blk) ∧
  NoDup (placeholder blk <$> slots RFLAG_Max blk).

(** Every predecessor of the block is a block whose register file holds
    a value for every position of the block. *)
Definition preds_readable (RFLAG_Max : nat) (s : Store) (blk : BasicBlock)
  : Prop :=
  Forall (λ p, Forall (λ x, is_Some (incoming_from s x p))
                 (slots RFLAG_Max blk))
    (preds blk).

#[global] Instance placeholders_fresh_dec n s blk :
  Decision (placeholders_fresh n s blk).
Proof. unfold placeholders_fresh. apply _. Defined.

#[global] Instance preds_readable_dec n s blk :
  Decision (preds_readable n s blk).
Proof. unfold preds_readable. apply _. Defined.

(** The store [s], reached from [s0] inside [FillPhis] after the
    (predecessor, position) pairs [jobs] were handled: only instructions
    changed, and the placeholder of each position has got, in order, the
    inputs of the pairs that name it. *)
Definition backfilled (RFLAG_Max : nat) (s0 : Store) (blk : BasicBlock)
    (jobs : list (BlockId * Slot)) (s : Store) : Prop :=
  only_insts_change s0 s ∧
  ∀ x, x ∈ slots RFLAG_Max blk →
    ∃ inc, placeholder blk x ≫= incoming s = Some inc ∧
      Some <$> inc
        = (λ j, incoming_from s0 x j.1) <$> filter (λ j, j.2 = x) jobs.

(** ** A worked example *)

(** Two blocks with six flags and the same facet-requirement sets; block 0
    branches to block 1 and falls through to itself, block 1 falls through
    to block 0. *)
Definition demo_flags : nat := 6.

Definition demo_gp : list (list Facet.Value) :=
  [[Facet.I64; Facet.I32]; []; []; [Facet.I64]] ++ replicate 12 [].

Definition demo_sse : list (list Facet.Value) :=
  [[]; [Facet.I128]] ++ replicate 14 [].

(** A handler that leaves the default selector alone. *)
Definition demo_handler_nop : LLInstr → BlockId → M unit := λ _ _, ret tt.

(** A handler that replaces the selector by a select on [cond]. *)
Definition demo_handler_select (cond : Value)
  : LLInstr → BlockId → M unit :=
  λ instr b,
    let! sel := Insert (SelectInst cond (ConstantInt 64 4198400)
                          (next_rip instr)) in
    update_block b (set_new_rip (Some (InstRef sel))).

(** A handler that replaces the selector by a value that is no select. *)
Definition demo_handler_plain : LLInstr → BlockId → M unit :=
  λ _ b, update_block b (set_new_rip (Some (Argument 7))).

(** An opcode table with five opcodes. *)
Definition demo_opcodes (t : nat) : option (LLInstr → BlockId → M unit) :=
  match t with
  | 0 => Some demo_handler_nop
  | 1 => Some (demo_handler_select getTrue)
  | 2 => Some (demo_handler_select (Argument 0))
  | 3 => Some (demo_handler_select (UndefValue (IntTy 1)))
  | 4 => Some demo_handler_plain
  | _ => None
  end.

Definition demo_instr (t : nat) : LLInstr := mkLLInstr 4198400 3 t.

Definition demo_created : Store :=
  Eval vm_compute in
    final ((new_BasicBlock demo_flags demo_gp demo_sse ;;;
            new_BasicBlock demo_flags demo_gp demo_sse) empty_store).

Definition demo_phis : Store :=
  Eval vm_compute in
    final ((AddPhis demo_flags 0 ;;; AddPhis demo_flags 1) demo_created).

Definition demo_linked : Store :=
  Eval vm_compute in
    final ((AddBranches 0 (Some 1) (Some 0) ;;;
            AddBranches 1 None (Some 0)) demo_phis).

(** Block 0 after one instruction of opcode [t], with and without its
    edges registered. *)
Definition demo_translated (t : nat) : Store :=
  final (AddInst demo_opcodes 0 (demo_instr t) demo_linked).

Definition demo_nop : Store := Eval vm_compute in demo_translated 0.
Definition demo_jump : Store := Eval vm_compute in demo_translated 1.
Definition demo_jcc : Store := Eval vm_compute in demo_translated 2.
Definition demo_undef : Store := Eval vm_compute in demo_translated 3.
Definition demo_plain : Store := Eval vm_compute in demo_translated 4.

Definition demo_jcc_unlinked : Store :=
  Eval vm_compute in
    final (AddInst demo_opcodes 0 (demo_instr 2) demo_phis).

(** The block object and the LLVM block at an index of a store. *)
Definition demo_block (s : Store) (b : BlockId) : BasicBlock :=
  default (mkBasicBlock 0 RegFile.empty None None [] [] [] [] None)
    (blocks s !! b).

Definition demo_body (s : Store) (bb : nat) : list nat :=
  default [] (llvm_bbs s !! bb).

(** ** Vocabulary of the further properties *)

(** Between [s] and [s'] at most one instruction was created, a
    terminator, and nothing but LLVM block [bb] can have got it; the block
    objects and the output are the same. *)
Definition at_most_a_terminator (bb : option nat) (s s' : Store) : Prop :=
  blocks s' = blocks s ∧ output s' = output s ∧
  (insts s' = insts s ∨
   ∃ i, insts s' = insts s ++ [i] ∧ isTerminator i = true) ∧
  ∀ bb', bb ≠ Some bb' → llvm_bbs s' !! bb' = llvm_bbs s !! bb'.

(** Between [s] and [s'] no instruction was created or removed, every
    instruction that is no PHI node is the same, and every PHI node has
    kept its type and its incoming pairs, with new pairs only after
    them. *)
Definition phis_only_grow (s s' : Store) : Prop :=
  length (insts s') = length (insts s) ∧
  ∀ n i, insts s !! n = Some i →
    match i with
    | PHINode ty inc => ∃ new, insts s' !! n = Some (PHINode ty (inc ++ new))
    | _ => insts s' !! n = Some i
    end.

(** The placeholders of the block are PHI nodes, one node per position
    (with any incoming pairs). *)
Definition placeholders_distinct (RFLAG_Max : nat) (s : Store)
    (blk : BasicBlock) : Prop :=
  Forall (λ x, is_Some (placeholder blk x ≫= incoming s))
    (slots RFLAG_Max blk) ∧
  NoDup (placeholder blk <$> slots RFLAG_Max blk).

#[global] Instance placeholders_distinct_dec n s blk :
  Decision (placeholders_distinct n s blk).
Proof. unfold placeholders_distinct. apply _. Defined.

(** As [backfilled], for placeholders that had incoming pairs in [s0]:
    the inputs of the handled pairs come after them. *)
Definition backfilled_onto (RFLAG_Max : nat) (s0 : Store) (blk : BasicBlock)
    (jobs : list (BlockId * Slot)) (s : Store) : Prop :=
  only_insts_change s0 s ∧
  ∀ x, x ∈ slots RFLAG_Max blk →
    ∃ inc0 new,
      placeholder blk x ≫= incoming s0 = Some inc0 ∧
      placeholder blk x ≫= incoming s = Some (inc0 ++ new) ∧
      Some <$> new
        = (λ j, incoming_from s0 x j.1) <$> filter (λ j, j.2 = x) jobs.

(** What holds of the store after [AddInst] has run, in order, on the
    instructions [pre] of a block whose handlers for these instructions
    do nothing: the prologues are in the LLVM block, and the selector and
    the instruction pointer are those of the last instruction. *)
Definition straight_line (s : Store) (b : BlockId) (blk : BasicBlock)
    (pre : list LLInstr) (s1 : Store) : Prop :=
  emitted s s1 (llvmBB blk) (pre ≫= prologue_insts) ∧
  output s1 = output s ∧
  (∀ x xblk, blocks s !! x = Some xblk →
     ∃ xb, blocks s1 !! x = Some xb ∧ llvmBB xb = llvmBB xblk) ∧
  ∃ blk1, blocks s1 !! b = Some blk1 ∧
    llvmBB blk1 = llvmBB blk ∧
    nextBranch blk1 = nextBranch blk ∧
    nextFallThrough blk1 = nextFallThrough blk ∧
    match last pre with
    | None => new_rip blk1 = new_rip blk
    | Some i =>
        RegFile.GetReg (regfile blk1) (mkLLReg LL_RT_IP 0) Facet.I64
          = Some (next_rip i) ∧
        ∃ v, new_rip blk1 = Some v ∧
          select_operands s1 v = Some (getFalse, next_rip i, next_rip i)
    end.

(** [successor->llvmBB] as a value: the LLVM block of a registered
    successor. *)
Definition successor_bb (s : Store) (p : option BlockId) : option nat :=
  x ← p; llvmBB <$> blocks s !! x.

(** The terminator the decision of [Terminate] selects for a block in a
    store in which every successor the decision dereferences is
    registered; [None] where [Terminate] emits nothing or fails. *)
Definition terminator_of (s : Store) (blk : BasicBlock)
  : option Instruction :=
  match new_rip blk with
  | None => BranchInst <$> successor_bb s (nextFallThrough blk)
  | Some v =>
      '(cond, _, _) ← select_operands s v;
      if isa_Constant cond then
        if isNullValue cond
        then BranchInst <$> successor_bb s (nextFallThrough blk)
        else BranchInst <$> successor_bb s (nextBranch blk)
      else
        ifTrue ← successor_bb s (nextBranch blk);
        ifFalse ← successor_bb s (nextFallThrough blk);
        Some (CondBranchInst cond ifTrue ifFalse)
  end.

(** ** The worked example, continued *)

(** Further stores of the example: block 0 registered as its own
    fall-through successor before any placeholder exists; block 0 after a
    fall-through instruction with no edge registered; block 0 after a
    jump with only the fall-through edge registered. *)
Definition demo_unfilled : Store :=
  Eval vm_compute in final (AddBranches 0 None (Some 0) demo_created).

Definition demo_nop_unlinked : Store :=
  Eval vm_compute in
    final (AddInst demo_opcodes 0 (demo_instr 0) demo_phis).

Definition demo_jump_half_linked : Store :=
  Eval vm_compute in
    final ((AddBranches 0 None (Some 1) ;;;
            AddInst demo_opcodes 0 (demo_instr 1)) demo_phis).

(** * Properties *)

(** ** Running the monad *)

Lemma bind_Done {A B} (m : M A) (k : A → M B) s a s' :
  m s = Done a s' → bind m k s = k a s'.
Proof. unfold bind. by intros ->. Qed.

Lemma bind_Stop {A B} (m : M A) (k : A → M B) s e s' :
  m s = Stop e s' → bind m k s = Stop e s'.
Proof. unfold bind. by intros ->. Qed.

Lemma bind_bind {A B C} (m : M A) (k : A → M B) (k' : B → M C) s :
  bind (bind m k) k' s = bind m (λ a, bind (k a) k') s.
Proof. unfold bind. by destruct (m s). Qed.

Lemma bind_ret {A B} (a : A) (k : A → M B) s : bind (ret a) k s = k a s.
Proof. done. Qed.

Lemma block_run b s blk :
  blocks s !! b = Some blk → block b s = Done blk s.
Proof. unfold block, bind, get. by intros ->. Qed.

Lemma block_llvmBB_run b s blk :
  blocks s !! b = Some blk → block_llvmBB b s = Done (llvmBB blk) s.
Proof. intros H. unfold block_llvmBB. by rewrite (bind_Done _ _ _ _ _ (block_run _ _ _ H)). Qed.

Lemma update_block_run b f s :
  is_Some (blocks s !! b) →
  update_block b f s = Done tt (set_blocks (alter f b (blocks s)) s).
Proof.
  intros [blk H]. unfold update_block.
  by rewrite (bind_Done _ _ _ _ _ (block_run _ _ _ H)).
Qed.

Lemma is_Some_lookup_alter {A} (f : A → A) (l : list A) i j :
  is_Some (alter f i l !! j) ↔ is_Some (l !! j).
Proof. by rewrite !lookup_lt_is_Some, length_alter. Qed.

Lemma SetCurrent_run b s blk :
  blocks s !! b = Some blk →
  SetCurrent b s = Done tt (made_current b blk s).
Proof.
  intros H. unfold SetCurrent.
  by rewrite (bind_Done _ _ _ _ _ (block_run _ _ _ H)).
Qed.

Lemma Insert_run i s bb body :
  insert_point s = Some bb →
  llvm_bbs s !! bb = Some body →
  Insert i s =
    Done (length (insts s))
      (set_llvm_bbs (<[bb := body ++ [length (insts s)]]> (llvm_bbs s))
         (set_insts (insts s ++ [i]) s)).
Proof.
  intros Hip Hbb. unfold Insert, bind, get, modify; simpl.
  rewrite Hip; simpl. by rewrite Hbb.
Qed.

(** ** Edge registration *)

Lemma AddBranches_run b branch ft s :
  is_Some (blocks s !! b) →
  (∀ x, branch = Some x ∨ ft = Some x → is_Some (blocks s !! x)) →
  AddBranches b branch ft s =
    Done tt (set_blocks (AddBranches_blocks b branch ft (blocks s)) s).
Proof.
  intros Hb Hv. unfold AddBranches, AddBranches_blocks.
  assert (Hbr : ∀ x, branch = Some x → is_Some (blocks s !! x)) by eauto.
  assert (Hft : ∀ x, ft = Some x → is_Some (blocks s !! x)) by eauto.
  destruct branch as [br|], ft as [x|];
    rewrite ?bind_bind, ?bind_ret;
    repeat (erewrite bind_Done;
            [|apply update_block_run; simpl;
              rewrite ?is_Some_lookup_alter; by eauto]);
    rewrite ?update_block_run
      by (simpl; rewrite ?is_Some_lookup_alter; by eauto);
    by destruct s.
Qed.

Lemma AddBranches_blocks_lookup b branch ft l x :
  AddBranches_blocks b branch ft l !! x =
  (λ blk,
     mkBasicBlock (llvmBB blk) (regfile blk)
       (if decide (x = b) then from_option Some (nextBranch blk) branch
        else nextBranch blk)
       (if decide (x = b) then from_option Some (nextFallThrough blk) ft
        else nextFallThrough blk)
       (preds blk ++ edge_entries b branch ft x)
       (phis_gp blk) (phis_sse blk) (phiFlags blk) (new_rip blk)) <$> l !! x.
Proof.
  unfold AddBranches_blocks, edge_entries.
  destruct branch as [br|], ft as [y|]; rewrite ?list_lookup_alter;
    repeat case_decide; simplify_eq;
    repeat match goal with
           | |- context [(?l' !! ?i)] => destruct (l' !! i) as [[]|]
           end;
    cbv [add_pred set_preds set_nextBranch set_nextFallThrough]; simpl;
    rewrite ?app_nil_r, <-?app_assoc; done.
Qed.

Lemma AddBranches_blocks_valid b branch ft l x :
  is_Some (AddBranches_blocks b branch ft l !! x) ↔ is_Some (l !! x).
Proof. rewrite AddBranches_blocks_lookup. apply fmap_is_Some. Qed.

(** C9: [AddBranches] appends the calling block to the predecessor vector
    of every non-null argument (once per argument that names the block)
    and records the non-null arguments as the caller's [nextBranch] and
    [nextFallThrough]; nothing else of any block changes.  It is not
    idempotent: a second call with the same arguments appends the caller
    a second time. *)
Theorem AddBranches_appends_and_records b branch fallThrough s :
  is_Some (blocks s !! b) →
  (∀ x, branch = Some x ∨ fallThrough = Some x → is_Some (blocks s !! x)) →
  ∃ s1 s2,
    AddBranches b branch fallThrough s = Done tt s1 ∧
    AddBranches b branch fallThrough s1 = Done tt s2 ∧
    (∀ x, preds_of s1 x =
            (λ p, p ++ edge_entries b branch fallThrough x) <$> preds_of s x) ∧
    (nextBranch <$> blocks s1 !! b =
       (λ blk, from_option Some (nextBranch blk) branch) <$> blocks s !! b) ∧
    (nextFallThrough <$> blocks s1 !! b =
       (λ blk, from_option Some (nextFallThrough blk) fallThrough)
         <$> blocks s !! b) ∧
    (∀ x, x ≠ b →
       nextBranch <$> blocks s1 !! x = nextBranch <$> blocks s !! x ∧
       nextFallThrough <$> blocks s1 !! x
         = nextFallThrough <$> blocks s !! x) ∧
    (∀ x, preds_of s2 x =
            (λ p, p ++ edge_entries b branch fallThrough x
                    ++ edge_entries b branch fallThrough x) <$> preds_of s x).
Proof.
  intros Hb Hv. do 2 eexists.
  split; [by apply AddBranches_run|].
  split.
  { apply AddBranches_run; simpl.
    - by apply AddBranches_blocks_valid.
    - intros x Hx. apply AddBranches_blocks_valid. by apply Hv. }
  unfold preds_of; simpl.
  repeat split; intros; rewrite !AddBranches_blocks_lookup;
    match goal with
    | |- context [blocks s !! ?x] => destruct (blocks s !! x)
    end; simpl; try done;
    rewrite ?decide_True, ?decide_False by done; try done.
  by rewrite <-(assoc_L (++)).
Qed.

(** ** Terminator resolution *)

Lemma successor_llvmBB_run p x s blk :
  p = Some x → blocks s !! x = Some blk →
  successor_llvmBB p s = Done (llvmBB blk) s.
Proof.
  intros -> H. unfold successor_llvmBB, deref, orStop.
  rewrite bind_ret. by apply block_llvmBB_run.
Qed.

Lemma dyn_cast_SelectInst_run s v :
  value_valid s v →
  dyn_cast_SelectInst v s = Done (select_operands s v) s.
Proof.
  unfold dyn_cast_SelectInst, select_operands, value_valid, bind, get.
  destruct v as [| |id|]; try done.
  intros [i ->]. by destruct i.
Qed.

Lemma select_operands_valid s v ops :
  select_operands s v = Some ops → value_valid s v.
Proof.
  unfold select_operands, value_valid. destruct v; try done.
  by destruct (insts s !! id).
Qed.

Lemma emitted_one s bb body i :
  llvm_bbs s !! bb = Some body →
  emitted s
    (set_llvm_bbs (<[bb := body ++ [length (insts s)]]> (llvm_bbs s))
       (set_insts (insts s ++ [i]) s)) bb [i].
Proof. intros H. split; [done|]. by exists body. Qed.

Lemma emitted_nothing s s' bb :
  is_Some (llvm_bbs s !! bb) →
  insts s' = insts s → llvm_bbs s' = llvm_bbs s → emitted s s' bb [].
Proof.
  intros [body H] Hi Hb. split; [by rewrite app_nil_r|].
  exists body. split; [done|]. simpl.
  by rewrite app_nil_r, list_insert_id.
Qed.

(** The first steps of [Terminate], common to every row of the table. *)
Lemma Terminate_start b s blk :
  blocks s !! b = Some blk →
  Terminate b s =
    match new_rip blk with
    | None =>
        (let! dest := successor_llvmBB (nextFallThrough blk) in
         CreateBr dest ;;; ret tt) (made_current b blk s)
    | Some v =>
        (let! select := dyn_cast_SelectInst v in
         match select with
         | Some (cond, _, _) =>
             if isa_Constant cond then
               assert_ (bool_decide (is_Some (nextBranch blk))
                        || bool_decide (is_Some (nextFallThrough blk))) ;;;
               if isNullValue cond then
                 let! dest := successor_llvmBB (nextFallThrough blk) in
                 CreateBr dest ;;; ret tt
               else
                 let! dest := successor_llvmBB (nextBranch blk) in
                 CreateBr dest ;;; ret tt
             else if negb (isa_UndefValue cond) then
               assert_ (bool_decide (is_Some (nextBranch blk))
                        && bool_decide (is_Some (nextFallThrough blk))) ;;;
               let! ifTrue := successor_llvmBB (nextBranch blk) in
               let! ifFalse := successor_llvmBB (nextFallThrough blk) in
               CreateCondBr cond ifTrue ifFalse ;;; ret tt
             else ret tt
         | None => ret tt
         end) (made_current b blk s)
    end.
Proof.
  intros H. unfold Terminate.
  rewrite (bind_Done _ _ _ _ _ (SetCurrent_run _ _ _ H)).
  rewrite (bind_Done _ _ _ _ _ (block_run b (made_current b blk s) blk H)).
  by destruct (new_rip blk).
Qed.

(** An unconditional or conditional jump created right after
    [SetCurrent]. *)
Lemma jump_after_current b s blk body (p : option BlockId) x xblk :
  blocks s !! b = Some blk →
  llvm_bbs s !! llvmBB blk = Some body →
  p = Some x → blocks s !! x = Some xblk →
  ∃ s', (let! dest := successor_llvmBB p in CreateBr dest ;;; ret tt)
          (made_current b blk s) = Done tt s' ∧
        emitted s s' (llvmBB blk) [BranchInst (llvmBB xblk)] ∧
        blocks s' = blocks s ∧ output s' = output s.
Proof.
  intros Hb Hbody -> Hx.
  rewrite (bind_Done _ _ _ _ _
             (successor_llvmBB_run (Some x) x (made_current b blk s) xblk
                eq_refl Hx)).
  unfold CreateBr.
  rewrite (bind_Done _ _ _ _ _
             (Insert_run _ (made_current b blk s) _ body eq_refl Hbody)).
  eexists. split; [done|]. split; [|done].
  by apply (emitted_one s).
Qed.

Lemma Terminate_select b s blk v ops :
  blocks s !! b = Some blk →
  new_rip blk = Some v → select_operands s v = Some ops →
  Terminate b s =
    (let '(cond, _, _) := ops in
     if isa_Constant cond then
       assert_ (bool_decide (is_Some (nextBranch blk))
                || bool_decide (is_Some (nextFallThrough blk))) ;;;
       if isNullValue cond then
         let! dest := successor_llvmBB (nextFallThrough blk) in
         CreateBr dest ;;; ret tt
       else
         let! dest := successor_llvmBB (nextBranch blk) in
         CreateBr dest ;;; ret tt
     else if negb (isa_UndefValue cond) then
       assert_ (bool_decide (is_Some (nextBranch blk))
                && bool_decide (is_Some (nextFallThrough blk))) ;;;
       let! ifTrue := successor_llvmBB (nextBranch blk) in
       let! ifFalse := successor_llvmBB (nextFallThrough blk) in
       CreateCondBr cond ifTrue ifFalse ;;; ret tt
     else ret tt) (made_current b blk s).
Proof.
  intros Hb Hnr Hsel. rewrite (Terminate_start _ _ _ Hb), Hnr.
  assert (Hv : value_valid (made_current b blk s) v)
    by by eapply (select_operands_valid s).
  rewrite (bind_Done _ _ _ _ _ (dyn_cast_SelectInst_run _ _ Hv)).
  change (select_operands (made_current b blk s) v)
    with (select_operands s v).
  rewrite Hsel. by destruct ops as [[cond ?] ?].
Qed.

(** A select whose condition is an [llvm::Constant]: one unconditional
    jump, to the fall-through successor for a null value and to the
    taken-branch successor otherwise. *)
Lemma Terminate_constant b s blk body v cond t f x xblk :
  blocks s !! b = Some blk →
  llvm_bbs s !! llvmBB blk = Some body →
  new_rip blk = Some v →
  select_operands s v = Some (cond, t, f) →
  isa_Constant cond = true →
  (if isNullValue cond then nextFallThrough blk else nextBranch blk)
    = Some x →
  blocks s !! x = Some xblk →
  Terminate_emits b s [BranchInst (llvmBB xblk)].
Proof.
  intros Hb Hbody Hnr Hsel Hc Hx Hxblk. exists blk.
  rewrite (Terminate_select _ _ _ _ _ Hb Hnr Hsel), Hc.
  assert (bool_decide (is_Some (nextBranch blk))
          || bool_decide (is_Some (nextFallThrough blk)) = true) as ->.
  { destruct (isNullValue cond); rewrite Hx;
      rewrite (bool_decide_eq_true_2 (is_Some (Some x))) by done;
      by rewrite ?orb_true_r. }
  unfold assert_. rewrite bind_ret.
  destruct (jump_after_current b s blk body _ x xblk Hb Hbody Hx Hxblk)
    as (s' & Hrun & Hem & Hbl & Hout).
  exists s'. by destruct (isNullValue cond).
Qed.

(** C4: the rows of the decision table with no runtime condition.  With
    the successor the row names registered, [Terminate] emits exactly one
    instruction, an unconditional jump: to the fall-through successor when
    [new_rip] is null, to the fall-through successor when [new_rip] is a
    select on the constant false (a zero integer), and to the taken-branch
    successor when it is a select on a constant true (a non-zero
    integer). *)
Theorem Terminate_unconditional_rows b s blk body :
  blocks s !! b = Some blk →
  llvm_bbs s !! llvmBB blk = Some body →
  (new_rip blk = None →
   ∀ ft ftblk,
     nextFallThrough blk = Some ft → blocks s !! ft = Some ftblk →
     Terminate_emits b s [BranchInst (llvmBB ftblk)]) ∧
  (∀ v bits t f ft ftblk,
     new_rip blk = Some v →
     select_operands s v = Some (ConstantInt bits 0, t, f) →
     nextFallThrough blk = Some ft → blocks s !! ft = Some ftblk →
     Terminate_emits b s [BranchInst (llvmBB ftblk)]) ∧
  (∀ v bits z t f br brblk,
     new_rip blk = Some v →
     select_operands s v = Some (ConstantInt bits z, t, f) →
     z ≠ 0%Z →
     nextBranch blk = Some br → blocks s !! br = Some brblk →
     Terminate_emits b s [BranchInst (llvmBB brblk)]).
Proof.
  intros Hb Hbody. split_and!.
  - intros Hnr ft ftblk Hft Hftblk. exists blk.
    rewrite (Terminate_start _ _ _ Hb), Hnr.
    destruct (jump_after_current b s blk body _ ft ftblk Hb Hbody Hft Hftblk)
      as (s' & Hrun & Hem & Hbl & Hout).
    by exists s'.
  - intros v bits t f ft ftblk Hnr Hsel Hft Hftblk.
    by eapply (Terminate_constant b s blk body v (ConstantInt bits 0)).
  - intros v bits z t f br brblk Hnr Hsel Hz Hbr Hbrblk.
    eapply (Terminate_constant b s blk body v (ConstantInt bits z));
      try done.
    simpl. by rewrite (proj2 (Z.eqb_neq z 0) Hz).
Qed.

(** C5: a select whose condition is not an [llvm::Constant] (a value
    computed at run time).  With both successors registered [Terminate]
    emits exactly one instruction, the two-way conditional jump on that
    condition to the taken-branch successor and the fall-through
    successor; with either of them null the assertion fails, and nothing
    is emitted. *)
Theorem Terminate_runtime_condition b s blk body v cond t f :
  blocks s !! b = Some blk →
  llvm_bbs s !! llvmBB blk = Some body →
  new_rip blk = Some v →
  select_operands s v = Some (cond, t, f) →
  isa_Constant cond = false →
  (∀ br ft brblk ftblk,
     nextBranch blk = Some br → nextFallThrough blk = Some ft →
     blocks s !! br = Some brblk → blocks s !! ft = Some ftblk →
     Terminate_emits b s
       [CondBranchInst cond (llvmBB brblk) (llvmBB ftblk)]) ∧
  (nextBranch blk = None ∨ nextFallThrough blk = None →
   Terminate b s = Stop AssertionFailed (made_current b blk s)).
Proof.
  intros Hb Hbody Hnr Hsel Hc.
  assert (Hu : isa_UndefValue cond = false) by by destruct cond.
  rewrite (Terminate_select _ _ _ _ _ Hb Hnr Hsel), Hc, Hu.
  split.
  - intros br ft brblk ftblk Hbr Hft Hbrblk Hftblk. exists blk.
    rewrite (Terminate_select _ _ _ _ _ Hb Hnr Hsel), Hc, Hu, Hbr, Hft.
    rewrite !(bool_decide_eq_true_2 (is_Some (Some _))) by done.
    unfold assert_. cbn [negb andb]. rewrite bind_ret.
    rewrite (bind_Done _ _ _ _ _
               (successor_llvmBB_run (Some br) br (made_current b blk s)
                  brblk eq_refl Hbrblk)).
    rewrite (bind_Done _ _ _ _ _
               (successor_llvmBB_run (Some ft) ft (made_current b blk s)
                  ftblk eq_refl Hftblk)).
    unfold CreateCondBr.
    rewrite (bind_Done _ _ _ _ _
               (Insert_run _ (made_current b blk s) _ body eq_refl Hbody)).
    eexists. split; [done|]. split; [done|]. split; [|done].
    by apply (emitted_one s).
  - intros Hnone. cbn [negb].
    assert (bool_decide (is_Some (nextBranch blk))
            && bool_decide (is_Some (nextFallThrough blk)) = false) as ->.
    { destruct Hnone as [-> | ->];
        rewrite (bool_decide_eq_false_2 (is_Some None))
          by (by intros [? ?]);
        by rewrite ?andb_false_r. }
    done.
Qed.

(** C10: [new_rip] is not null and does not point to a select
    instruction.  [Terminate] takes the stub branch: it returns without a
    failure, and no instruction is created and no LLVM block changes. *)
Theorem Terminate_not_a_select_emits_nothing b s blk v :
  blocks s !! b = Some blk →
  new_rip blk = Some v →
  value_valid s v →
  select_operands s v = None →
  ∃ s', Terminate b s = Done tt s' ∧
    insts s' = insts s ∧ llvm_bbs s' = llvm_bbs s ∧
    blocks s' = blocks s ∧ output s' = output s.
Proof.
  intros Hb Hnr Hv Hsel. rewrite (Terminate_start _ _ _ Hb), Hnr.
  assert (Hv' : value_valid (made_current b blk s) v) by done.
  rewrite (bind_Done _ _ _ _ _ (dyn_cast_SelectInst_run _ _ Hv')).
  change (select_operands (made_current b blk s) v)
    with (select_operands s v).
  rewrite Hsel. by eexists.
Qed.

(** ** The register file *)

Lemma GetReg_SetReg_eq rf reg facet v c :
  RegFile.GetReg (RegFile.SetReg rf reg facet v c) reg facet = Some v.
Proof. unfold RegFile.GetReg, RegFile.SetReg; simpl. apply lookup_insert_eq. Qed.

(** A plain write leaves every other (register, facet) pair alone. *)
Lemma GetReg_SetReg_plain rf reg facet v reg' facet' :
  (reg', facet') ≠ (reg, facet) →
  RegFile.GetReg (RegFile.SetReg rf reg facet v false) reg' facet'
    = RegFile.GetReg rf reg' facet'.
Proof.
  intros Hne. unfold RegFile.GetReg, RegFile.SetReg; simpl.
  by rewrite lookup_insert_ne.
Qed.

(** An invalidating write drops the other facets of the register. *)
Lemma GetReg_SetReg_invalidated rf reg facet v facet' :
  facet' ≠ facet →
  RegFile.GetReg (RegFile.SetReg rf reg facet v true) reg facet' = None.
Proof.
  intros Hne. unfold RegFile.GetReg, RegFile.SetReg; simpl.
  rewrite lookup_insert_ne by congruence.
  apply map_lookup_filter_None. right. intros x _. simpl. tauto.
Qed.

(** An invalidating write leaves the other registers alone. *)
Lemma GetReg_SetReg_other_register rf reg facet v c reg' facet' :
  reg' ≠ reg →
  RegFile.GetReg (RegFile.SetReg rf reg facet v c) reg' facet'
    = RegFile.GetReg rf reg' facet'.
Proof.
  intros Hne. unfold RegFile.GetReg, RegFile.SetReg; simpl.
  rewrite lookup_insert_ne by congruence.
  destruct c; [|done].
  rewrite map_lookup_filter.
  destruct (RegFile.regs rf !! (reg', facet')); simpl; [|done].
  by rewrite option_guard_True.
Qed.

Lemma GetFlag_SetFlag_eq rf i v :
  RegFile.GetFlag (RegFile.SetFlag rf i v) i = Some v.
Proof. unfold RegFile.GetFlag, RegFile.SetFlag; simpl. apply lookup_insert_eq. Qed.

Lemma GetFlag_SetFlag_ne rf i v j :
  j ≠ i →
  RegFile.GetFlag (RegFile.SetFlag rf i v) j = RegFile.GetFlag rf j.
Proof.
  intros Hne. unfold RegFile.GetFlag, RegFile.SetFlag; simpl.
  by rewrite lookup_insert_ne.
Qed.

(** ** Instruction translation *)

Lemma AddInst_prologue_run b instr s blk body :
  blocks s !! b = Some blk →
  llvm_bbs s !! llvmBB blk = Some body →
  AddInst_prologue b instr s = Done tt (at_switch b blk body instr s).
Proof.
  intros Hb Hbody. unfold AddInst_prologue.
  rewrite (bind_Done _ _ _ _ _ (SetCurrent_run _ _ _ Hb)).
  unfold regfile_SetReg.
  erewrite bind_Done by (apply update_block_run; simpl; by rewrite Hb).
  unfold CreateCall.
  erewrite bind_Done by (by eapply Insert_run; simpl).
  erewrite bind_Done.
  2:{ eapply Insert_run; simpl; [done|].
      apply list_lookup_insert_eq. by eapply lookup_lt_Some. }
  rewrite update_block_run by (simpl; by rewrite is_Some_lookup_alter, Hb).
  unfold at_switch, prologue_insts, next_rip.
  cbv [set_blocks set_llvm_bbs set_insts made_current set_insert_point
       set_state_regfile]; simpl.
  rewrite list_insert_insert_eq, list_alter_alter_eq, length_app; simpl.
  by rewrite <-!(assoc_L (++)), Nat.add_1_r.
Qed.

Lemma at_switch_emitted b blk body instr s :
  llvm_bbs s !! llvmBB blk = Some body →
  emitted s (at_switch b blk body instr s) (llvmBB blk) (prologue_insts instr).
Proof. intros H. split; [done|]. by exists body. Qed.

(** C6: before the [switch] on the opcode, [AddInst] has written the
    64-bit constant [addr + len] (in [uintptr_t] arithmetic) to the I64
    facet of the instruction pointer with the other facets of that
    register dropped, has emitted the [donothing] call and after it a
    select with condition false and both values that constant, and has made
    [new_rip] point to the select.  The handler, or the default case,
    starts from that store. *)
Theorem AddInst_prologue_before_dispatch
    (opcodes : nat → option (LLInstr → BlockId → M unit))
    b instr s blk body :
  blocks s !! b = Some blk →
  llvm_bbs s !! llvmBB blk = Some body →
  ∃ s0 blk0,
    AddInst opcodes b instr s =
      match opcodes (type_ instr) with
      | Some handler => handler instr b s0
      | None => (printf (CouldNotHandle (addr instr)) ;;; warn_if_reached) s0
      end ∧
    blocks s0 !! b = Some blk0 ∧
    next_rip instr = ConstantInt 64 ((addr instr + len instr) mod 2 ^ 64) ∧
    RegFile.GetReg (regfile blk0) (mkLLReg LL_RT_IP 0) Facet.I64
      = Some (next_rip instr) ∧
    (∀ facet, facet ≠ Facet.I64 →
       RegFile.GetReg (regfile blk0) (mkLLReg LL_RT_IP 0) facet = None) ∧
    (∀ reg facet, reg ≠ mkLLReg LL_RT_IP 0 →
       RegFile.GetReg (regfile blk0) reg facet
         = RegFile.GetReg (regfile blk) reg facet) ∧
    (∀ i, RegFile.GetFlag (regfile blk0) i = RegFile.GetFlag (regfile blk) i) ∧
    emitted s s0 (llvmBB blk)
      [CallInst donothing;
       SelectInst (ConstantInt 1 0) (next_rip instr) (next_rip instr)] ∧
    ∃ sel, new_rip blk0 = Some sel ∧
      select_operands s0 sel
        = Some (ConstantInt 1 0, next_rip instr, next_rip instr).
Proof.
  intros Hb Hbody. exists (at_switch b blk body instr s). eexists.
  split.
  { unfold AddInst.
    rewrite (bind_Done _ _ _ _ _ (AddInst_prologue_run _ instr _ _ _ Hb Hbody)).
    by destruct (opcodes (type_ instr)). }
  split.
  { simpl. rewrite list_lookup_alter_eq, Hb. done. }
  simpl. split_and!; try done.
  - apply GetReg_SetReg_eq.
  - intros facet Hne. by apply GetReg_SetReg_invalidated.
  - intros reg facet Hne. by apply GetReg_SetReg_other_register.
  - by apply at_switch_emitted.
  - eexists. split; [done|]. simpl.
    rewrite lookup_app_r by lia.
    by replace (S (length (insts s)) - length (insts s)) with 1 by lia.
Qed.

(** C3: an opcode outside the table.  [AddInst] prints the diagnostic with
    the address of the instruction and does not return; what it emitted
    before contains no terminator, and whatever is sequenced after the
    call, [Terminate] included, does not run. *)
Theorem AddInst_unrecognized_opcode
    (opcodes : nat → option (LLInstr → BlockId → M unit))
    b instr s blk body :
  blocks s !! b = Some blk →
  llvm_bbs s !! llvmBB blk = Some body →
  opcodes (type_ instr) = None →
  ∃ s', AddInst opcodes b instr s = Stop Unreachable s' ∧
    output s' = output s ++ [CouldNotHandle (addr instr)] ∧
    (∃ new, emitted s s' (llvmBB blk) new ∧
       Forall (λ i, isTerminator i = false) new) ∧
    (∀ k : unit → M unit,
       (AddInst opcodes b instr ;;; k tt) s = Stop Unreachable s') ∧
    (∀ k : unit → M unit,
       (AddInst opcodes b instr ;;; Terminate b ;;; k tt) s
         = Stop Unreachable s').
Proof.
  intros Hb Hbody Hop.
  exists (set_output (output s ++ [CouldNotHandle (addr instr)])
            (at_switch b blk body instr s)).
  assert (Hrun : AddInst opcodes b instr s =
            Stop Unreachable
              (set_output (output s ++ [CouldNotHandle (addr instr)])
                 (at_switch b blk body instr s))).
  { unfold AddInst.
    rewrite (bind_Done _ _ _ _ _ (AddInst_prologue_run _ instr _ _ _ Hb Hbody)).
    by rewrite Hop. }
  split_and!; try done.
  - exists (prologue_insts instr). split.
    + by apply at_switch_emitted.
    + by repeat constructor.
  - intros k. by apply bind_Stop.
  - intros k. by apply bind_Stop.
Qed.

(** ** What a computation leaves alone *)

Section Frames.

Context (R : Store → Store → Prop) `{!Reflexive R, !Transitive R}.

Lemma frames_bind {A B} (m : M A) (k : A → M B) :
  frames R m → (∀ a, frames R (k a)) → frames R (bind m k).
Proof.
  intros Hm Hk s. unfold bind. specialize (Hm s).
  destruct (m s) as [a s'|e s']; simpl in *; [|done].
  by etrans; [|apply Hk].
Qed.

Lemma frames_ret {A} (a : A) : frames R (ret a).
Proof. by intros s. Qed.

Lemma frames_stop {A} e : frames R (stop (A := A) e).
Proof. by intros s. Qed.

Lemma frames_get : frames R get.
Proof. by intros s. Qed.

Lemma frames_orStop {A} e (o : option A) : frames R (orStop e o).
Proof. destruct o; [apply frames_ret|apply frames_stop]. Qed.

Lemma frames_for {A} (l : list A) (body : A → M unit) :
  (∀ x, frames R (body x)) → frames R (for_ l body).
Proof.
  intros Hbody. induction l as [|x l IH]; simpl.
  - apply frames_ret.
  - by apply frames_bind.
Qed.

Lemma frames_block b : frames R (block b).
Proof. apply frames_bind; [apply frames_get|]. intros s. apply frames_orStop. Qed.

Lemma frames_block_llvmBB b : frames R (block_llvmBB b).
Proof. apply frames_bind; [apply frames_block|]. intros. apply frames_ret. Qed.

Lemma frames_phis_entry phis b i : frames R (phis_entry phis b i).
Proof. apply frames_bind; [apply frames_block|]. intros. apply frames_orStop. Qed.

Lemma frames_phis_at phis b i facet : frames R (phis_at phis b i facet).
Proof.
  apply frames_bind; [apply frames_phis_entry|]. intros. apply frames_orStop.
Qed.

Lemma frames_phiFlags_at b i : frames R (phiFlags_at b i).
Proof. apply frames_bind; [apply frames_block|]. intros. apply frames_orStop. Qed.

Lemma frames_regfile_GetReg b reg facet : frames R (regfile_GetReg b reg facet).
Proof. apply frames_bind; [apply frames_block|]. intros. apply frames_orStop. Qed.

Lemma frames_regfile_GetFlag b i : frames R (regfile_GetFlag b i).
Proof. apply frames_bind; [apply frames_block|]. intros. apply frames_orStop. Qed.

Lemma frames_cast_PHINode v : frames R (cast_PHINode v).
Proof.
  intros s. unfold cast_PHINode, bind, get.
  destruct v as [[| |id|]|]; simpl; try done.
  by destruct (insts s !! id) as [[]|].
Qed.

End Frames.

#[local] Instance only_insts_change_refl : Reflexive only_insts_change.
Proof. by intros s. Qed.

#[local] Instance only_insts_change_trans : Transitive only_insts_change.
Proof.
  intros s1 s2 s3 (?&?&?&?&?) (?&?&?&?&?).
  repeat split; congruence.
Qed.

Lemma frames_addIncoming phi v bb :
  frames only_insts_change (addIncoming phi v bb).
Proof.
  intros s. unfold addIncoming, bind, get.
  by destruct (insts s !! phi) as [[]|].
Qed.

(** The loop body of [FillPhis] touches LLVM instructions only. *)
Lemma frames_FillPhis_pred RFLAG_Max b pred :
  frames only_insts_change (FillPhis_pred RFLAG_Max b pred).
Proof.
  unfold FillPhis_pred.
  repeat first
    [ apply frames_for; intros
    | apply frames_phis_entry | apply frames_phis_at
    | apply frames_cast_PHINode | apply frames_regfile_GetReg
    | apply frames_regfile_GetFlag | apply frames_block_llvmBB
    | apply frames_phiFlags_at | apply frames_orStop
    | apply frames_addIncoming | apply _
    | apply frames_bind; [..|intros] ].
Qed.

Lemma FillPhis_run RFLAG_Max b s :
  FillPhis RFLAG_Max b s =
    match blocks s !! b with
    | Some this =>
        for_ (preds this) (FillPhis_pred RFLAG_Max b)
          (set_state_regfile None s)
    | None => Stop InvalidPointer (set_state_regfile None s)
    end.
Proof.
  unfold FillPhis, bind at 1, modify, bind at 1, block, bind at 1, get, orStop.
  change (blocks (set_state_regfile None s)) with (blocks s).
  by destruct (blocks s !! b).
Qed.

(** C8: whatever the shared state pointed to before, when [FillPhis] is
    over (returned or stopped) [state.regfile] is null, so nothing can be
    read or written through it; the block objects themselves, their
    register files included, are as they were. *)
Theorem FillPhis_invalidates_regfile_handle RFLAG_Max b s :
  state_regfile (final (FillPhis RFLAG_Max b s)) = None ∧
  live_regfile (final (FillPhis RFLAG_Max b s)) = None ∧
  blocks (final (FillPhis RFLAG_Max b s)) = blocks s.
Proof.
  assert (H : state_regfile (final (FillPhis RFLAG_Max b s)) = None ∧
              blocks (final (FillPhis RFLAG_Max b s)) = blocks s).
  { rewrite FillPhis_run.
    destruct (blocks s !! b) as [this|]; [|done].
    destruct (frames_for only_insts_change (preds this) _
                (frames_FillPhis_pred RFLAG_Max b)
                (set_state_regfile None s)) as (_&_&Hrf&Hbl&_).
    by rewrite Hrf, Hbl. }
  destruct H as [H1 H2]. unfold live_regfile. by rewrite H1.
Qed.

(** ** Placeholder creation *)

Lemma facets_set_at e f v : facets (set_at e f v) = facets e.
Proof.
  unfold facets. induction e as [|[g w] e IH]; [done|].
  simpl. case_decide; csimpl; [done|]. by f_equal.
Qed.

Lemma at_set_at_eq e f v : f ∈ facets e → at_ (set_at e f v) f = Some v.
Proof.
  unfold facets. induction e as [|[g w] e IH]; simpl.
  - by intros ?%elem_of_nil.
  - intros Hin. case_decide as Hg; simpl.
    + by rewrite decide_True.
    + rewrite decide_False by done. apply IH.
      apply elem_of_cons in Hin as [?|?]; [congruence|done].
Qed.

Lemma at_set_at_ne e f v f' : f' ≠ f → at_ (set_at e f v) f' = at_ e f'.
Proof.
  intros Hne. induction e as [|[g w] e IH]; [done|].
  simpl. case_decide as Hg; simpl.
  - subst g. simpl. by rewrite !decide_False by congruence.
  - simpl. by rewrite IH.
Qed.

Lemma at_is_Some e f : f ∈ facets e ↔ is_Some (at_ e f).
Proof.
  unfold facets. induction e as [|[g w] e IH]; simpl.
  - split; [by intros ?%elem_of_nil|by intros [? ?]].
  - rewrite elem_of_cons. case_decide as Hg.
    + split; [by eexists|]. intros _. by left.
    + rewrite <-IH. split; [|by right]. intros [?|?]; [congruence|done].
Qed.

(** Loop invariants *)
Lemma for_inv {A} (I : list A → Store → Prop) (body : A → M unit)
    (l : list A) :
  (∀ pre x post s, l = pre ++ x :: post → I pre s →
     ∃ s', body x s = Done tt s' ∧ I (pre ++ [x]) s') →
  ∀ s, I [] s → ∃ s', for_ l body s = Done tt s' ∧ I l s'.
Proof.
  intros Hstep.
  assert (H : ∀ post pre s, l = pre ++ post → I pre s →
            ∃ s', for_ post body s = Done tt s' ∧ I l s').
  { induction post as [|x post IH]; intros pre s Hl HI.
    - exists s. split; [done|]. by rewrite Hl, app_nil_r.
    - destruct (Hstep pre x post s Hl HI) as (s1 & Hrun & HI1).
      destruct (IH (pre ++ [x]) s1) as (s2 & Hrun2 & HI2); [|done|].
      { by rewrite <-(assoc_L (++)). }
      exists s2. split; [|done]. simpl.
      by rewrite (bind_Done _ _ _ _ _ Hrun). }
  intros s HI. by apply (H l []).
Qed.

Lemma kind_phis_set_regfile t rf blk :
  kind_phis t (set_regfile rf blk) = kind_phis t blk.
Proof. by destruct t. Qed.

Lemma placeholder_set_regfile rf blk x :
  placeholder (set_regfile rf blk) x = placeholder blk x.
Proof. destruct x as [[t i] f|i]; [|done]. by destruct t. Qed.

Lemma kind_phis_set_same t p blk :
  t ≠ LL_RT_IP → kind_phis t (kind_set_phis t p blk) = p.
Proof. by destruct t. Qed.

Lemma kind_phis_set_other t t' p blk :
  t' ≠ t → kind_phis t' (kind_set_phis t p blk) = kind_phis t' blk.
Proof. by destruct t, t'. Qed.

Lemma emitted_snoc s0 s bb new i body :
  emitted s0 s bb new →
  llvm_bbs s !! bb = Some body →
  emitted s0
    (set_llvm_bbs (<[bb := body ++ [length (insts s)]]> (llvm_bbs s))
       (set_insts (insts s ++ [i]) s)) bb (new ++ [i]).
Proof.
  intros [Hi (body0 & Hb0 & Hbbs)] Hbody. split.
  - simpl. by rewrite Hi, <-(assoc_L (++)).
  - exists body0. split; [done|]. simpl.
    rewrite Hbbs in Hbody |- *.
    rewrite list_lookup_insert_eq in Hbody by by eapply lookup_lt_Some.
    simplify_eq. rewrite list_insert_insert_eq.
    rewrite Hi, !length_app, seq_app, <-(assoc_L (++)). done.
Qed.

Lemma emitted_lookup s0 s bb new :
  emitted s0 s bb new → is_Some (llvm_bbs s !! bb).
Proof.
  intros [_ (body0 & Hb0 & ->)].
  rewrite list_lookup_insert_eq by by eapply lookup_lt_Some. done.
Qed.

Lemma phis_at_run phis b i f s blk e v :
  blocks s !! b = Some blk → phis blk !! i = Some e → at_ e f = Some v →
  phis_at phis b i f s = Done v s.
Proof.
  intros Hb He Hv. unfold phis_at, phis_entry.
  rewrite bind_bind, (bind_Done _ _ _ _ _ (block_run _ _ _ Hb)).
  unfold orStop at 1. rewrite He, bind_ret. by rewrite Hv.
Qed.

Lemma phiFlags_at_run b i s blk v :
  blocks s !! b = Some blk → phiFlags blk !! i = Some v →
  phiFlags_at b i s = Done v s.
Proof.
  intros Hb Hv. unfold phiFlags_at.
  rewrite (bind_Done _ _ _ _ _ (block_run _ _ _ Hb)). by rewrite Hv.
Qed.

Lemma kind_facets t blk blk0 :
  facets <$> phis_gp blk = facets <$> phis_gp blk0 →
  facets <$> phis_sse blk = facets <$> phis_sse blk0 →
  facets <$> kind_phis t blk = facets <$> kind_phis t blk0.
Proof. by destruct t. Qed.

Lemma facets_alter_set_at (l : list PhiEntry) i f v :
  facets <$> alter (λ e, set_at e f v) i l = facets <$> l.
Proof.
  apply list_eq; intros j. rewrite !list_lookup_fmap, list_lookup_alter.
  case_decide; subst; destruct (l !! _); simpl; by rewrite ?facets_set_at.
Qed.

Lemma placeholder_install_same t i facet v blk e :
  t ≠ LL_RT_IP → kind_phis t blk !! i = Some e → facet ∈ facets e →
  placeholder
    (kind_set_phis t
       (alter (λ e, set_at e facet (Some v)) i (kind_phis t blk)) blk)
    (SlotReg (mkLLReg t i) facet) = Some v.
Proof.
  intros Ht He Hf. simpl. rewrite kind_phis_set_same by done.
  rewrite list_lookup_alter_eq, He. simpl.
  by rewrite at_set_at_eq.
Qed.

Lemma placeholder_install_other t i facet v blk x :
  x ≠ SlotReg (mkLLReg t i) facet →
  placeholder
    (kind_set_phis t
       (alter (λ e, set_at e facet (Some v)) i (kind_phis t blk)) blk) x
  = placeholder blk x.
Proof.
  intros Hne. destruct x as [[t' i'] f'|j]; simpl.
  - destruct (decide (t' = t)) as [->|Ht].
    + destruct (decide (t = LL_RT_IP)) as [->|Hip]; [done|].
      rewrite kind_phis_set_same by done.
      rewrite list_lookup_alter. case_decide as Hi; [|done]. subst i'.
      destruct (kind_phis t blk !! i); simpl; [|done].
      rewrite at_set_at_ne; [done|]. congruence.
    + by rewrite kind_phis_set_other.
  - by destruct t.
Qed.

Lemma read_slot_SetReg_other rf reg facet v x :
  x ≠ SlotReg reg facet →
  read_slot (RegFile.SetReg rf reg facet v false) x = read_slot rf x.
Proof.
  intros Hne. destruct x as [reg' f'|j]; simpl; [|done].
  apply GetReg_SetReg_plain. congruence.
Qed.

Lemma read_slot_SetFlag_other rf i v x :
  x ≠ SlotFlag i →
  read_slot (RegFile.SetFlag rf i v) x = read_slot rf x.
Proof.
  intros Hne. destruct x as [reg' f'|j]; simpl; [done|].
  apply GetFlag_SetFlag_ne. congruence.
Qed.

Lemma placeholder_flag_same blk i n :
  i < length (phiFlags blk) →
  placeholder (set_phiFlags (<[i := Some n]> (phiFlags blk)) blk) (SlotFlag i)
    = Some (InstRef n).
Proof. intros Hi. simpl. by rewrite list_lookup_insert_eq. Qed.

Lemma placeholder_flag_other blk i n x :
  x ≠ SlotFlag i →
  placeholder (set_phiFlags (<[i := Some n]> (phiFlags blk)) blk) x
    = placeholder blk x.
Proof.
  intros Hne. destruct x as [[t j] f|j]; simpl.
  - by destruct t.
  - rewrite list_lookup_insert_ne; [done|]. congruence.
Qed.

Lemma install_placeholder_step s0 b blk0 done x s :
  phis_installed s0 b blk0 done s → x ∉ done → slot_exists blk0 x →
  ∃ s', install_placeholder b x s = Done tt s' ∧
        phis_installed s0 b blk0 (done ++ [x]) s'.
Proof.
  intros (blk & Hb & Hother & Hip & Hrf & Hout & Hem & HllvmBB & Hnb & Hnf
          & Hpreds & Hnr & Hgp & Hsse & Hfl & Hdone & Hrest) Hx Hex.
  destruct (emitted_lookup _ _ _ _ Hem) as [body Hbody].
  assert (Hn : length (insts s) = length (insts s0) + length done).
  { destruct Hem as [-> _]. by rewrite length_app, length_fmap. }
  destruct x as [[t i] facet|i].
  - destruct Hex as (e0 & He0 & Hfacet). simpl in He0.
    assert (∃ e, kind_phis t blk !! i = Some e ∧ facets e = facets e0)
      as (e & He & Hfe).
    { pose proof (kind_facets t _ _ Hgp Hsse) as Hk.
      apply (f_equal (.!! i)) in Hk. rewrite !list_lookup_fmap, He0 in Hk.
      destruct (kind_phis t blk !! i) as [e|]; simplify_eq/=. by exists e. }
    assert (Ht : t ≠ LL_RT_IP) by (intros ->; done).
    assert (∃ v, at_ e facet = Some v) as [v0 Hv0].
    { rewrite <-Hfe in Hfacet. by apply at_is_Some in Hfacet. }
    unfold install_placeholder, CreatePHI.
    rewrite (bind_Done _ _ _ _ _ (Insert_run _ s _ body Hip Hbody)).
    unfold regfile_SetReg.
    erewrite bind_Done by (apply update_block_run; simpl; by rewrite Hb).
    unfold phis_store.
    erewrite bind_Done.
    2:{ eapply (phis_at_run _ _ _ _ _ _ e v0); [| |done].
        - simpl. by rewrite list_lookup_alter_eq, Hb.
        - simpl. by rewrite kind_phis_set_regfile. }
    rewrite update_block_run
      by (simpl; by rewrite is_Some_lookup_alter, Hb).
    eexists. split; [done|].
    eexists. split.
    { simpl. by rewrite !list_lookup_alter_eq, Hb. }
    split.
    { intros y Hy. simpl. rewrite !list_lookup_alter_ne by done. by apply Hother. }
    split; [done|]. split; [done|]. split; [done|].
    split.
    { rewrite fmap_app. by apply emitted_snoc. }
    set (rf' := RegFile.SetReg (regfile blk) _ _ _ _).
    set (v := InstRef (length (insts s))).
    assert (Hsame : set_regfile rf' blk = set_regfile rf' blk) by done.
    assert (He' : kind_phis t (set_regfile rf' blk) !! i = Some e)
      by by rewrite kind_phis_set_regfile.
    assert (Hfacet' : facet ∈ facets e) by by rewrite Hfe.
    split_and!.
    + by destruct t.
    + by destruct t.
    + by destruct t.
    + by destruct t.
    + by destruct t.
    + destruct t; simpl; rewrite ?facets_alter_set_at; done.
    + destruct t; simpl; rewrite ?facets_alter_set_at; done.
    + by destruct t.
    + intros k x [Hk|[-> <-]]%lookup_snoc_Some.
      * destruct Hk as [Hlt Hk].
        assert (x ≠ SlotReg (mkLLReg t i) facet).
        { intros ->. apply Hx. by eapply list_elem_of_lookup_2. }
        rewrite placeholder_install_other, placeholder_set_regfile by done.
        destruct (Hdone k x Hk) as [Hp Hr]. split; [done|].
        replace (regfile _) with rf' by by destruct t.
        unfold rf'. by rewrite read_slot_SetReg_other.
      * rewrite (placeholder_install_same _ _ _ _ _ e) by done.
        split; [by rewrite <-Hn|].
        replace (regfile _) with rf' by by destruct t.
        simpl. unfold rf'. by rewrite GetReg_SetReg_eq, <-Hn.
    + intros x [Hxd Hxx]%not_elem_of_app.
      assert (x ≠ SlotReg (mkLLReg t i) facet).
      { intros ->. apply Hxx. by left. }
      rewrite placeholder_install_other, placeholder_set_regfile by done.
      replace (regfile _) with rf' by by destruct t.
      unfold rf'. rewrite read_slot_SetReg_other by done. by apply Hrest.
  - simpl in Hex.
    unfold install_placeholder, CreatePHI.
    rewrite (bind_Done _ _ _ _ _ (Insert_run _ s _ body Hip Hbody)).
    unfold regfile_SetFlag.
    erewrite bind_Done by (apply update_block_run; simpl; by rewrite Hb).
    unfold phiFlags_store.
    destruct (lookup_lt_is_Some_2 (phiFlags blk) i) as [w Hw]; [lia|].
    erewrite bind_Done.
    2:{ eapply (phiFlags_at_run _ _ _ _ w);
          [simpl; by rewrite list_lookup_alter_eq, Hb|done]. }
    rewrite update_block_run
      by (simpl; by rewrite is_Some_lookup_alter, Hb).
    eexists. split; [done|].
    eexists. split.
    { simpl. by rewrite !list_lookup_alter_eq, Hb. }
    split.
    { intros y Hy. simpl. rewrite !list_lookup_alter_ne by done. by apply Hother. }
    split; [done|]. split; [done|]. split; [done|].
    split.
    { rewrite fmap_app. by apply emitted_snoc. }
    simpl. split_and!; try done.
    + by rewrite length_insert.
    + intros k x [Hk|[-> <-]]%lookup_snoc_Some.
      * destruct Hk as [Hlt Hk].
        assert (x ≠ SlotFlag i).
        { intros ->. apply Hx. by eapply list_elem_of_lookup_2. }
        rewrite (placeholder_flag_other (set_regfile _ blk)) by done.
        rewrite placeholder_set_regfile, read_slot_SetFlag_other by done.
        by apply Hdone.
      * rewrite (placeholder_flag_same (set_regfile _ blk)) by (simpl; lia).
        rewrite <-Hn. split; [done|]. simpl. by rewrite GetFlag_SetFlag_eq.
    + intros x [Hxd Hxx]%not_elem_of_app.
      assert (x ≠ SlotFlag i).
      { intros ->. apply Hxx. by left. }
      rewrite (placeholder_flag_other (set_regfile _ blk)) by done.
      rewrite placeholder_set_regfile, read_slot_SetFlag_other by done.
      by apply Hrest.
Qed.

Lemma NoDup_app_cons_not_elem {A} (l1 l2 : list A) x :
  NoDup (l1 ++ x :: l2) → x ∉ l1.
Proof.
  intros (_ & H & _)%NoDup_app Hin. apply (H x Hin). by left.
Qed.


Lemma phis_entry_run phis b i s blk e :
  blocks s !! b = Some blk → phis blk !! i = Some e →
  phis_entry phis b i s = Done e s.
Proof.
  intros Hb He. unfold phis_entry.
  rewrite (bind_Done _ _ _ _ _ (block_run _ _ _ Hb)). by rewrite He.
Qed.

Lemma elem_of_slots_of t phis i x :
  x ∈ slots_of t phis i ↔
  ∃ e f, x = SlotReg (mkLLReg t i) f ∧ phis !! i = Some e ∧ f ∈ facets e.
Proof.
  unfold slots_of. destruct (phis !! i) as [e|]; simpl.
  - rewrite app_nil_r, list_elem_of_fmap. split.
    + intros (f & -> & Hf). by exists e, f.
    + intros (e' & f & -> & [= <-] & Hf). by exists f.
  - split; [by intros ?%elem_of_nil|]. by intros (? & ? & _ & [=] & _).
Qed.

Lemma elem_of_reg_slots t n phis x :
  x ∈ reg_slots t n phis ↔
  ∃ i e f, x = SlotReg (mkLLReg t i) f ∧ i < n ∧
           phis !! i = Some e ∧ f ∈ facets e.
Proof.
  change (reg_slots t n phis) with (seq 0 n ≫= slots_of t phis).
  rewrite list_elem_of_bind. split.
  - intros (i & (e & f & -> & He & Hf)%elem_of_slots_of & Hi%elem_of_seq).
    exists i, e, f. split_and!; try done. lia.
  - intros (i & e & f & -> & Hi & He & Hf). exists i. split.
    + apply elem_of_slots_of. by exists e, f.
    + apply elem_of_seq. lia.
Qed.

Lemma elem_of_slots n blk x : x ∈ slots n blk ↔ required n blk x.
Proof.
  unfold slots. rewrite !elem_of_app, !elem_of_reg_slots, list_elem_of_fmap.
  destruct x as [[t i] f|j]; simpl; split.
  - intros [(i' & e & f' & [= -> -> ->] & Hi & He & Hf)
           |[(i' & e & f' & [= -> -> ->] & Hi & He & Hf)
            |(j & [=] & _)]]; (split; [auto|by exists e]).
  - intros [[[-> Hi]|[-> Hi]] (e & He & Hf)].
    + left. by exists i, e, f.
    + right; left. by exists i, e, f.
  - intros [(? & ? & ? & [=] & _)|[(? & ? & ? & [=] & _)
                                  |(j' & [= ->] & Hj%elem_of_seq)]]. lia.
  - intros Hj. right; right. exists j. split; [done|]. apply elem_of_seq. lia.
Qed.

Lemma NoDup_reg_slots t n phis :
  Forall (λ e, NoDup (facets e)) phis → NoDup (reg_slots t n phis).
Proof.
  intros Hphis.
  change (reg_slots t n phis) with (seq 0 n ≫= slots_of t phis).
  apply NoDup_bind; [| |apply NoDup_seq].
  - intros i1 i2 y _ _ (e1 & f1 & -> & _)%elem_of_slots_of
      (e2 & f2 & [= <- _] & _)%elem_of_slots_of. done.
  - intros i _. unfold slots_of. destruct (phis !! i) as [e|] eqn:He; simpl.
    + rewrite app_nil_r. apply NoDup_fmap_2.
      * by intros f1 f2 [= ->].
      * rewrite Forall_forall in Hphis. apply Hphis.
        by eapply list_elem_of_lookup_2.
    + constructor.
Qed.

Lemma NoDup_slots n blk : wf_block n blk → NoDup (slots n blk).
Proof.
  intros (_ & _ & _ & Hgp & Hsse). unfold slots.
  apply NoDup_app. split_and!.
  - by apply NoDup_reg_slots.
  - intros x (i & e & f & -> & _)%elem_of_reg_slots
      [(i' & e' & f' & [=] & _)%elem_of_reg_slots
      |(j & [=] & _)%list_elem_of_fmap]%elem_of_app.
  - apply NoDup_app. split_and!.
    + by apply NoDup_reg_slots.
    + intros x (i & e & f & -> & _)%elem_of_reg_slots
        (j & [=] & _)%list_elem_of_fmap.
    + apply NoDup_fmap_2; [by intros ?? [= ->]|apply NoDup_seq].
Qed.

Lemma phis_installed_start b s blk body :
  blocks s !! b = Some blk →
  llvm_bbs s !! llvmBB blk = Some body →
  phis_installed s b blk [] (made_current b blk s).
Proof.
  intros Hb Hbody. exists blk. split_and!; try done.
  apply emitted_nothing; by eauto.
Qed.

Lemma AddPhis_loops RFLAG_Max b :
  AddPhis RFLAG_Max b
  = (SetCurrent b ;;; slot_loops RFLAG_Max b (install_placeholder b)).
Proof. done. Qed.

Lemma FillPhis_pred_loops RFLAG_Max b pred :
  FillPhis_pred RFLAG_Max b pred = slot_loops RFLAG_Max b (backfill b pred).
Proof. done. Qed.

(** An invariant [I] of the visited positions, kept by the loop body,
    holds of all positions of the block after the three loops. *)
Lemma slot_loops_inv (I : list Slot → Store → Prop) (step : Slot → M unit)
    RFLAG_Max b blk0 s :
  wf_block RFLAG_Max blk0 →
  (∀ done s, I done s →
     ∃ blk, blocks s !! b = Some blk ∧
       facets <$> phis_gp blk = facets <$> phis_gp blk0 ∧
       facets <$> phis_sse blk = facets <$> phis_sse blk0) →
  (∀ done x s, I done s → x ∉ done → x ∈ slots RFLAG_Max blk0 →
     ∃ s', step x s = Done tt s' ∧ I (done ++ [x]) s') →
  I [] s →
  ∃ s', slot_loops RFLAG_Max b step s = Done tt s' ∧
        I (slots RFLAG_Max blk0) s'.
Proof.
  intros Hwf Hshape Hstep Hstart.
  pose proof (NoDup_slots _ _ Hwf) as Hnd.
  destruct Hwf as (Hlgp & Hlsse & Hlfl & _).
  assert (Hreg : ∀ t n base s,
    n ≤ length (kind_phis t blk0) →
    (∀ x, x ∈ reg_slots t n (kind_phis t blk0) →
          x ∈ slots RFLAG_Max blk0) →
    NoDup (base ++ reg_slots t n (kind_phis t blk0)) →
    I base s →
    ∃ s',
      for_ (seq 0 n) (λ i,
        let! entry := phis_entry (kind_phis t) b i in
        for_ (facets entry) (λ facet, step (SlotReg (mkLLReg t i) facet))) s
        = Done tt s' ∧
      I (base ++ reg_slots t n (kind_phis t blk0)) s').
  { clear s Hstart Hnd. intros t n base s Hn Hin Hnd Hbase.
    change (reg_slots t n (kind_phis t blk0))
      with (seq 0 n ≫= slots_of t (kind_phis t blk0)) in Hnd |- *.
    apply (for_inv
      (λ pre s, I (base ++ (pre ≫= slots_of t (kind_phis t blk0))) s));
      [|by rewrite app_nil_r].
    intros pre i post s1 Hseq Hpre.
    assert (Hi : i < n).
    { assert (i ∈ seq 0 n) as ?%elem_of_seq; [|lia].
      rewrite Hseq. apply elem_of_app. right. by left. }
    destruct (lookup_lt_is_Some_2 (kind_phis t blk0) i) as [e0 He0]; [lia|].
    destruct (Hshape _ _ Hpre) as (blk & Hb & Hgp & Hsse).
    assert (∃ e, kind_phis t blk !! i = Some e ∧ facets e = facets e0)
      as (e & He & Hfe).
    { pose proof (kind_facets t _ _ Hgp Hsse) as Hk.
      apply (f_equal (.!! i)) in Hk. rewrite !list_lookup_fmap, He0 in Hk.
      destruct (kind_phis t blk !! i) as [e|]; simplify_eq/=. by exists e. }
    rewrite (bind_Done _ _ _ _ _ (phis_entry_run _ _ _ _ _ _ Hb He)).
    rewrite Hfe.
    assert (Hsl : slots_of t (kind_phis t blk0) i
                  = SlotReg (mkLLReg t i) <$> facets e0).
    { unfold slots_of. rewrite He0. simpl. by rewrite app_nil_r. }
    rewrite bind_app, bind_singleton, Hsl.
    rewrite Hseq, bind_app, bind_cons, Hsl in Hnd.
    rewrite (assoc_L (++)).
    apply (for_inv
      (λ pre_f s, I ((base ++ (pre ≫= slots_of t (kind_phis t blk0)))
                       ++ (SlotReg (mkLLReg t i) <$> pre_f)) s));
      [|by rewrite app_nil_r].
    intros pre_f f post_f s2 Hfs Hpre_f.
    rewrite fmap_app, (assoc_L (++)).
    apply Hstep; [done| |].
    - rewrite Hfs, fmap_app, fmap_cons in Hnd.
      rewrite !(assoc_L (++)) in Hnd.
      rewrite <-(assoc_L (++) _ (_ :: _)) in Hnd.
      by apply NoDup_app_cons_not_elem in Hnd.
    - apply Hin, elem_of_reg_slots. exists i, e0, f. split_and!; try done.
      rewrite Hfs. apply elem_of_app. right. by left. }
  assert (Hflag : ∀ i, i < RFLAG_Max → SlotFlag i ∈ slots RFLAG_Max blk0).
  { intros i Hi. by apply elem_of_slots. }
  assert (Hin1 : ∀ x, x ∈ reg_slots LL_RT_GP64 LL_RI_GPMax (phis_gp blk0) →
                      x ∈ slots RFLAG_Max blk0).
  { intros x Hx. apply elem_of_app. by left. }
  assert (Hin2 : ∀ x, x ∈ reg_slots LL_RT_XMM LL_RI_XMMMax (phis_sse blk0) →
                      x ∈ slots RFLAG_Max blk0).
  { intros x Hx. apply elem_of_app. right. apply elem_of_app. by left. }
  unfold slot_loops. unfold slots in Hnd |- *.
  destruct (Hreg LL_RT_GP64 LL_RI_GPMax [] s) as (s1 & Hrun1 & H1).
  { simpl. lia. }
  { exact Hin1. }
  { simpl. by apply NoDup_app in Hnd as [? _]. }
  { done. }
  rewrite (bind_Done _ _ _ _ _ Hrun1). simpl in H1.
  destruct (Hreg LL_RT_XMM LL_RI_XMMMax
              (reg_slots LL_RT_GP64 LL_RI_GPMax (phis_gp blk0)) s1)
    as (s2 & Hrun2 & H2); [simpl; lia|exact Hin2| |exact H1|].
  { rewrite (assoc_L (++)) in Hnd. by apply NoDup_app in Hnd as [? _]. }
  rewrite (bind_Done _ _ _ _ _ Hrun2). simpl in H2.
  rewrite (assoc_L (++)) in Hnd |- *.
  apply (for_inv
    (λ pre s, I ((reg_slots LL_RT_GP64 LL_RI_GPMax (phis_gp blk0) ++
                  reg_slots LL_RT_XMM LL_RI_XMMMax (phis_sse blk0))
                 ++ (SlotFlag <$> pre)) s));
    [|by rewrite app_nil_r].
  intros pre i post s3 Hseq Hpre.
  assert (Hi : i < RFLAG_Max).
  { assert (i ∈ seq 0 RFLAG_Max) as ?%elem_of_seq; [|lia].
    rewrite Hseq. apply elem_of_app. right. by left. }
  rewrite fmap_app, (assoc_L (++)).
  apply Hstep; [done| |].
  - rewrite Hseq, fmap_app, fmap_cons, (assoc_L (++)) in Hnd.
    by apply NoDup_app_cons_not_elem in Hnd.
  - by apply Hflag.
Qed.

Lemma AddPhis_installed RFLAG_Max b s blk body :
  blocks s !! b = Some blk →
  llvm_bbs s !! llvmBB blk = Some body →
  wf_block RFLAG_Max blk →
  ∃ s', AddPhis RFLAG_Max b s = Done tt s' ∧
        phis_installed s b blk (slots RFLAG_Max blk) s'.
Proof.
  intros Hb Hbody Hwf. rewrite AddPhis_loops.
  rewrite (bind_Done _ _ _ _ _ (SetCurrent_run _ _ _ Hb)).
  apply (slot_loops_inv (phis_installed s b blk)); [done| | |].
  - intros done s1 (blk1 & Hb1 & H). exists blk1. split; [done|]. tauto.
  - intros done x s1 Hdone Hx Hin. apply install_placeholder_step; [done..|].
    apply elem_of_slots in Hin. destruct x as [reg facet|i].
    + by destruct Hin as [_ ?].
    + destruct Hwf as (_ & _ & Hl & _). simpl in *. lia.
  - by eapply phis_installed_start.
Qed.

(** C7: [AddPhis] visits every facet in the facet maps of the
    general-purpose and vector registers and every flag index, each once.
    Per visit it creates one PHI node without incoming values, of the
    catalog type of the facet (one bit for a flag), and nothing else; the
    node is stored in the block's placeholder array and written to the
    register file.  The writes are plain: at the end every visited
    position still reads its own node, and every other (register, facet)
    pair and flag of the register file reads as before. *)
Theorem AddPhis_creates_placeholders RFLAG_Max b s blk body :
  blocks s !! b = Some blk →
  llvm_bbs s !! llvmBB blk = Some body →
  wf_block RFLAG_Max blk →
  ∃ s' blk',
    AddPhis RFLAG_Max b s = Done tt s' ∧
    blocks s' !! b = Some blk' ∧
    (∀ x, required RFLAG_Max blk x ↔ x ∈ slots RFLAG_Max blk) ∧
    NoDup (slots RFLAG_Max blk) ∧
    emitted s s' (llvmBB blk)
      ((λ x, PHINode (slot_type x) []) <$> slots RFLAG_Max blk) ∧
    (∀ k x, slots RFLAG_Max blk !! k = Some x →
       placeholder blk' x = Some (InstRef (length (insts s) + k)) ∧
       insts s' !! (length (insts s) + k)
         = Some (PHINode (slot_type x) []) ∧
       read_slot (regfile blk') x = Some (InstRef (length (insts s) + k))) ∧
    (∀ x, ¬ required RFLAG_Max blk x →
       read_slot (regfile blk') x = read_slot (regfile blk) x).
Proof.
  intros Hb Hbody Hwf.
  destruct (AddPhis_installed _ _ _ _ _ Hb Hbody Hwf)
    as (s' & Hrun & blk' & Hb' & _ & _ & _ & _ & Hem & _ & _ & _ & _ & _
        & _ & _ & _ & Hdone & Hrest).
  exists s', blk'. split_and!; try done.
  - intros x. symmetry. apply elem_of_slots.
  - by apply NoDup_slots.
  - intros k x Hk. destruct (Hdone k x Hk) as [Hp Hr].
    split_and!; try done.
    destruct Hem as [-> _].
    rewrite lookup_app_r by lia.
    replace (length (insts s) + k - length (insts s)) with k by lia.
    by rewrite list_lookup_fmap, Hk.
  - intros x Hx. apply Hrest. by rewrite elem_of_slots.
Qed.

(** ** Backfill *)

Lemma cast_PHINode_run s n ty inc :
  insts s !! n = Some (PHINode ty inc) →
  cast_PHINode (Some (InstRef n)) s = Done n s.
Proof. intros H. unfold cast_PHINode, bind, get. by rewrite H. Qed.

Lemma regfile_GetReg_run b reg facet s blk v :
  blocks s !! b = Some blk →
  RegFile.GetReg (regfile blk) reg facet = Some v →
  regfile_GetReg b reg facet s = Done v s.
Proof.
  intros Hb Hv. unfold regfile_GetReg.
  rewrite (bind_Done _ _ _ _ _ (block_run _ _ _ Hb)). by rewrite Hv.
Qed.

Lemma regfile_GetFlag_run b i s blk v :
  blocks s !! b = Some blk →
  RegFile.GetFlag (regfile blk) i = Some v →
  regfile_GetFlag b i s = Done v s.
Proof.
  intros Hb Hv. unfold regfile_GetFlag.
  rewrite (bind_Done _ _ _ _ _ (block_run _ _ _ Hb)). by rewrite Hv.
Qed.

Lemma addIncoming_run s n ty inc v bb :
  insts s !! n = Some (PHINode ty inc) →
  addIncoming n v bb s =
    Done tt (set_insts (<[n := PHINode ty (inc ++ [(v, bb)])]> (insts s)) s).
Proof. intros H. unfold addIncoming, bind, get. by rewrite H. Qed.

Lemma incoming_Some s v inc :
  incoming s v = Some inc →
  ∃ n ty, v = InstRef n ∧ insts s !! n = Some (PHINode ty inc).
Proof.
  unfold incoming. destruct v as [| |n|]; try done.
  destruct (insts s !! n) as [[ty inc'| | | |]|] eqn:Hn; try done.
  intros [= ->]. by exists n, ty.
Qed.

Lemma incoming_from_Some s x p vb :
  incoming_from s x p = Some vb →
  ∃ pblk, blocks s !! p = Some pblk ∧
    read_slot (regfile pblk) x = Some vb.1 ∧ vb.2 = llvmBB pblk.
Proof.
  unfold incoming_from.
  destruct (blocks s !! p) as [pblk|] eqn:Hp; [|done]. simpl.
  destruct (read_slot (regfile pblk) x) as [v|] eqn:Hv; [|done]. simpl.
  intros [= <-]. exists pblk. by rewrite Hv.
Qed.

(** One iteration of a loop of [FillPhis] appends the predecessor's
    input to the placeholder of the position and to no other. *)
Lemma backfill_step RFLAG_Max s0 b blk jobs p x s :
  blocks s0 !! b = Some blk →
  NoDup (placeholder blk <$> slots RFLAG_Max blk) →
  backfilled RFLAG_Max s0 blk jobs s →
  x ∈ slots RFLAG_Max blk →
  is_Some (incoming_from s0 x p) →
  ∃ s', backfill b p x s = Done tt s' ∧
        backfilled RFLAG_Max s0 blk (jobs ++ [(p, x)]) s'.
Proof.
  intros Hb Hnd [Hframe Hinv] Hx [[v bb] Hin].
  pose proof Hframe as (Hbbs & Hip & Hrf & Hbl & Hout).
  destruct (Hinv x Hx) as (inc & Hinc & Hjobs).
  destruct (placeholder blk x) as [ph|] eqn:Hph; [|done]. simpl in Hinc.
  destruct (incoming_Some _ _ _ Hinc) as (n & ty & -> & Hn).
  destruct (incoming_from_Some _ _ _ _ Hin) as (pblk & Hp & Hread & Hbb).
  simpl in Hread, Hbb. subst bb.
  assert (Hrun : backfill b p x s =
            Done tt (set_insts
                       (<[n := PHINode ty (inc ++ [(v, llvmBB pblk)])]>
                          (insts s)) s)).
  { destruct x as [reg facet|j]; simpl in Hph, Hread |- *.
    - destruct (kind_phis (rt reg) blk !! ri reg) as [e|] eqn:He; [|done].
      simpl in Hph.
      destruct (at_ e facet) as [[w|]|] eqn:Hat; simplify_eq/=.
      erewrite bind_Done
        by (eapply phis_at_run; [by rewrite Hbl|exact He|exact Hat]).
      rewrite (bind_Done _ _ _ _ _ (cast_PHINode_run _ _ _ _ Hn)).
      erewrite bind_Done
        by (eapply regfile_GetReg_run; [by rewrite Hbl|exact Hread]).
      erewrite bind_Done by (eapply block_llvmBB_run; by rewrite Hbl).
      by apply addIncoming_run.
    - destruct (phiFlags blk !! j) as [[m|]|] eqn:Hfl; simplify_eq/=.
      erewrite bind_Done
        by (eapply regfile_GetFlag_run; [by rewrite Hbl|exact Hread]).
      rewrite bind_bind.
      erewrite bind_Done
        by (eapply phiFlags_at_run; [by rewrite Hbl|exact Hfl]).
      unfold deref, orStop. rewrite bind_ret.
      erewrite bind_Done by (eapply block_llvmBB_run; by rewrite Hbl).
      by apply addIncoming_run. }
  eexists. split; [exact Hrun|]. split; [done|].
  intros y Hy. destruct (Hinv y Hy) as (incy & Hincy & Hjobsy).
  rewrite filter_app, fmap_app.
  destruct (decide (y = x)) as [->|Hne].
  - exists (inc ++ [(v, llvmBB pblk)]). split.
    + rewrite Hph. simpl.
      rewrite list_lookup_insert_eq by by eapply lookup_lt_Some. done.
    + rewrite fmap_app, Hjobs. f_equal.
      rewrite filter_cons_True by done. simpl. by rewrite Hin.
  - exists incy. split.
    + destruct (placeholder blk y) as [phy|] eqn:Hphy; [|done].
      simpl in Hincy |- *.
      destruct (incoming_Some _ _ _ Hincy) as (m & tym & -> & Hm).
      cbn [incoming set_insts insts].
      rewrite list_lookup_insert_ne; [by rewrite Hm|].
      intros <-. apply Hne.
      apply list_elem_of_lookup_1 in Hx as [i Hi].
      apply list_elem_of_lookup_1 in Hy as [j Hj].
      assert (i = j) as ->; [|congruence].
      eapply (NoDup_lookup _ _ _ (Some (InstRef n)) Hnd);
        rewrite list_lookup_fmap; [by rewrite Hi; simpl; rewrite Hph
                                  |by rewrite Hj; simpl; rewrite Hphy].
    + rewrite filter_cons_False by (simpl; congruence).
      by rewrite filter_nil, app_nil_r.
Qed.

Lemma FillPhis_pred_backfilled RFLAG_Max s0 b blk jobs p s :
  blocks s0 !! b = Some blk →
  wf_block RFLAG_Max blk →
  NoDup (placeholder blk <$> slots RFLAG_Max blk) →
  Forall (λ x, is_Some (incoming_from s0 x p)) (slots RFLAG_Max blk) →
  backfilled RFLAG_Max s0 blk jobs s →
  ∃ s', FillPhis_pred RFLAG_Max b p s = Done tt s' ∧
        backfilled RFLAG_Max s0 blk
          (jobs ++ (pair p <$> slots RFLAG_Max blk)) s'.
Proof.
  intros Hb Hwf Hnd Hread Hjobs. rewrite FillPhis_pred_loops.
  apply (slot_loops_inv
    (λ done s, backfilled RFLAG_Max s0 blk (jobs ++ (pair p <$> done)) s));
    [done| | |by rewrite app_nil_r].
  - intros done s1 [(_ & _ & _ & Hbl & _) _]. exists blk. by rewrite Hbl.
  - intros done x s1 Hdone _ Hx.
    rewrite fmap_app, (assoc_L (++)).
    apply (backfill_step RFLAG_Max s0 b blk); try done.
    rewrite Forall_forall in Hread. by apply Hread.
Qed.

Lemma filter_position_jobs (sl : list Slot) (ps : list BlockId) x :
  NoDup sl → x ∈ sl →
  filter (λ j : BlockId * Slot, j.2 = x) (ps ≫= λ p, pair p <$> sl)
    = (λ p, (p, x)) <$> ps.
Proof.
  intros Hnd Hx.
  assert (Hone : ∀ p, filter (λ j : BlockId * Slot, j.2 = x) (pair p <$> sl)
                      = [(p, x)]).
  { intros p. clear ps. induction Hnd as [|y sl Hy Hnd IH]; csimpl.
    - by apply elem_of_nil in Hx.
    - destruct (decide (y = x)) as [->|Hne].
      + rewrite filter_cons_True by done. f_equal.
        clear IH Hx. induction sl as [|z sl IH]; [done|]. csimpl.
        apply not_elem_of_cons in Hy as [Hz Hy].
        rewrite filter_cons_False by (simpl; congruence).
        apply IH; [done|]. by apply NoDup_cons in Hnd as [_ ?].
      + rewrite filter_cons_False by done. apply IH.
        apply elem_of_cons in Hx as [?|?]; [congruence|done]. }
  induction ps as [|p ps IH]; [done|].
  rewrite bind_cons, filter_app, Hone, IH. done.
Qed.

(** C2: a block whose placeholders are distinct PHI nodes without
    incoming values, and whose predecessors hold a value for every
    position.  [FillPhis] returns, and afterwards the placeholder of every
    general-purpose and vector register facet of the block and of every
    flag has as many incoming pairs as the predecessor vector has entries:
    the pair of the k-th entry is the value the register file of that
    predecessor holds for the same position, with the predecessor's LLVM
    block. *)
Theorem FillPhis_fills_every_placeholder RFLAG_Max b s blk :
  blocks s !! b = Some blk →
  wf_block RFLAG_Max blk →
  placeholders_fresh RFLAG_Max s blk →
  preds_readable RFLAG_Max s blk →
  ∃ s', FillPhis RFLAG_Max b s = Done tt s' ∧
    blocks s' = blocks s ∧
    ∀ x, required RFLAG_Max blk x →
      ∃ inc, placeholder blk x ≫= incoming s' = Some inc ∧
        length inc = length (preds blk) ∧
        Some <$> inc = incoming_from s x <$> preds blk.
Proof.
  intros Hb Hwf [Hfresh Hnd] Hread.
  rewrite FillPhis_run, Hb.
  set (s0 := set_state_regfile None s).
  destruct (for_inv
    (λ pre s1, backfilled RFLAG_Max s0 blk
                 (pre ≫= λ p, pair p <$> slots RFLAG_Max blk) s1)
    (FillPhis_pred RFLAG_Max b) (preds blk)) with (s := s0)
    as (s' & Hrun & [Hframe Hinv]).
  - intros pre p post s1 Hpreds Hpre.
    rewrite bind_app, bind_singleton.
    apply (FillPhis_pred_backfilled RFLAG_Max s0 b blk); try done.
    unfold preds_readable in Hread. rewrite Forall_forall in Hread.
    apply (Hread p). rewrite Hpreds. apply elem_of_app. right. by left.
  - split; [done|]. intros x Hx. exists []. split; [|done].
    rewrite Forall_forall in Hfresh. by apply Hfresh.
  - exists s'. split; [done|].
    destruct Hframe as (_ & _ & _ & Hbl & _). split; [done|].
    intros x Hx%elem_of_slots.
    destruct (Hinv x Hx) as (inc & Hinc & Hjobs).
    rewrite filter_position_jobs in Hjobs
      by (by apply NoDup_slots || done).
    rewrite <-list_fmap_compose in Hjobs.
    exists inc. split_and!; [done| |done].
    apply (f_equal length) in Hjobs. by rewrite !length_fmap in Hjobs.
Qed.

Lemma reg_slots_facets t n (phis phis' : list PhiEntry) :
  facets <$> phis = facets <$> phis' →
  reg_slots t n phis = reg_slots t n phis'.
Proof.
  intros Heq. unfold reg_slots. apply list_bind_ext; [|done].
  intros i. apply (f_equal (.!! i)) in Heq.
  rewrite !list_lookup_fmap in Heq.
  destruct (phis !! i), (phis' !! i); simplify_eq/=; [|done].
  by rewrite Heq.
Qed.

(** [AddPhis] leaves the block as [FillPhis] needs it: the same
    positions, each with a PHI node of its own that has no incoming
    value. *)
Lemma AddPhis_placeholders_fresh RFLAG_Max b s blk body :
  blocks s !! b = Some blk →
  llvm_bbs s !! llvmBB blk = Some body →
  wf_block RFLAG_Max blk →
  ∃ s' blk',
    AddPhis RFLAG_Max b s = Done tt s' ∧
    blocks s' !! b = Some blk' ∧
    wf_block RFLAG_Max blk' ∧
    slots RFLAG_Max blk' = slots RFLAG_Max blk ∧
    preds blk' = preds blk ∧
    placeholders_fresh RFLAG_Max s' blk'.
Proof.
  intros Hb Hbody Hwf.
  destruct (AddPhis_installed _ _ _ _ _ Hb Hbody Hwf)
    as (s' & Hrun & blk' & Hb' & _ & _ & _ & _ & Hem & _ & _ & _ & Hpreds
        & _ & Hgp & Hsse & Hfl & Hdone & _).
  assert (Hslots : slots RFLAG_Max blk' = slots RFLAG_Max blk).
  { unfold slots.
    by rewrite (reg_slots_facets _ _ _ _ Hgp), (reg_slots_facets _ _ _ _ Hsse). }
  exists s', blk'.
  split; [done|]. split; [done|]. split; [|split; [done|split; [done|]]].
  - destruct Hwf as (Hlgp & Hlsse & Hlfl & Hngp & Hnsse).
    split_and!.
    + apply (f_equal length) in Hgp. rewrite !length_fmap in Hgp.
      congruence.
    + apply (f_equal length) in Hsse. rewrite !length_fmap in Hsse.
      congruence.
    + congruence.
    + apply (Forall_fmap facets (λ fs, NoDup fs)). rewrite Hgp.
      by apply Forall_fmap.
    + apply (Forall_fmap facets (λ fs, NoDup fs)). rewrite Hsse.
      by apply Forall_fmap.
  - unfold placeholders_fresh. rewrite Hslots. split.
    + apply Forall_lookup. intros k x Hk.
      destruct (Hdone k x Hk) as [-> _]. simpl.
      destruct Hem as [-> _]. rewrite lookup_app_r by lia.
      replace (length (insts s) + k - length (insts s)) with k by lia.
      by rewrite list_lookup_fmap, Hk.
    + apply NoDup_alt. intros i j v Hi Hj.
      rewrite list_lookup_fmap in Hi, Hj.
      destruct (slots RFLAG_Max blk !! i) as [x|] eqn:Hxi; [|done].
      destruct (slots RFLAG_Max blk !! j) as [y|] eqn:Hyj; [|done].
      destruct (Hdone i x Hxi) as [Hpx _].
      destruct (Hdone j y Hyj) as [Hpy _].
      simpl in Hi, Hj. rewrite Hpx in Hi. rewrite Hpy in Hj.
      simplify_eq. lia.
Qed.

(** ** The worked example *)

Ltac by_computation := apply (bool_decide_unpack _); vm_compute; exact I.

(** C1: the code on a selector whose condition is undef.  Block 0 of
    [demo_undef] has a select on [undef] as its selector and both
    successors registered; [Terminate] returns having emitted an
    unconditional jump to the LLVM block of the taken-branch successor
    (block 1), because [UndefValue] is an [llvm::Constant] that is not a
    null value, so the branch guarded by [!isa<UndefValue>] is never
    reached with an undef. *)
Theorem Terminate_undef_condition_emits_jump :
  new_rip (demo_block demo_undef 0) = Some (InstRef 22) ∧
  select_operands demo_undef (InstRef 22)
    = Some (UndefValue (IntTy 1), ConstantInt 64 4198400,
            ConstantInt 64 4198403) ∧
  nextBranch (demo_block demo_undef 0) = Some 1 ∧
  Terminate_emits 0 demo_undef
    [BranchInst (llvmBB (demo_block demo_undef 1))] ∧
  Terminate 0 demo_undef ≠ Done tt (made_current 0 (demo_block demo_undef 0) demo_undef).
Proof.
  split_and!; try reflexivity.
  - by eapply (Terminate_constant 0 demo_undef (demo_block demo_undef 0)
                 (demo_body demo_undef 0) (InstRef 22)).
  - vm_compute. discriminate.
Qed.

(** The edge registration theorem on the example: block 0 registers
    block 1 as both of its successors, twice. *)
Lemma AddBranches_appends_and_records_witness :
  ∃ s1 s2,
    AddBranches 0 (Some 1) (Some 1) demo_phis = Done tt s1 ∧
    AddBranches 0 (Some 1) (Some 1) s1 = Done tt s2 ∧
    preds_of demo_phis 1 = Some [] ∧
    preds_of s1 1 = Some [0; 0] ∧
    nextBranch <$> blocks s1 !! 0 = Some (Some 1) ∧
    nextFallThrough <$> blocks s1 !! 0 = Some (Some 1) ∧
    preds_of s2 1 = Some [0; 0; 0; 0].
Proof.
  destruct (AddBranches_appends_and_records 0 (Some 1) (Some 1) demo_phis)
    as (s1 & s2 & H1 & H2 & Hp1 & Hnb & Hnf & _ & Hp2).
  - by eexists.
  - intros x [[= <-]|[= <-]]; by eexists.
  - exists s1, s2. rewrite Hp1, Hp2, Hnb, Hnf. by split_and!.
Defined.

(** The three unconditional rows on the example: no instruction
    translated, a fall-through instruction, a jump. *)
Lemma Terminate_unconditional_rows_witness :
  Terminate_emits 0 demo_linked
    [BranchInst (llvmBB (demo_block demo_linked 0))] ∧
  Terminate_emits 0 demo_nop [BranchInst (llvmBB (demo_block demo_nop 0))] ∧
  Terminate_emits 0 demo_jump [BranchInst (llvmBB (demo_block demo_jump 1))].
Proof.
  split_and!.
  - apply (proj1 (Terminate_unconditional_rows 0 demo_linked
                    (demo_block demo_linked 0) (demo_body demo_linked 0)
                    eq_refl eq_refl) eq_refl 0); reflexivity.
  - apply (proj1 (proj2 (Terminate_unconditional_rows 0 demo_nop
                    (demo_block demo_nop 0) (demo_body demo_nop 0)
                    eq_refl eq_refl))
             (InstRef 21) 1 (ConstantInt 64 4198403) (ConstantInt 64 4198403)
             0); reflexivity.
  - apply (proj2 (proj2 (Terminate_unconditional_rows 0 demo_jump
                    (demo_block demo_jump 0) (demo_body demo_jump 0)
                    eq_refl eq_refl))
             (InstRef 22) 1 1%Z (ConstantInt 64 4198400)
             (ConstantInt 64 4198403) 1); [reflexivity..|lia|reflexivity|reflexivity].
Defined.

(** The runtime row on the example: a conditional jump with both edges
    registered, and without them. *)
Lemma Terminate_runtime_condition_witness :
  Terminate_emits 0 demo_jcc
    [CondBranchInst (Argument 0) (llvmBB (demo_block demo_jcc 1))
       (llvmBB (demo_block demo_jcc 0))] ∧
  Terminate 0 demo_jcc_unlinked
    = Stop AssertionFailed
        (made_current 0 (demo_block demo_jcc_unlinked 0) demo_jcc_unlinked).
Proof.
  split.
  - apply (proj1 (Terminate_runtime_condition 0 demo_jcc
                    (demo_block demo_jcc 0) (demo_body demo_jcc 0)
                    (InstRef 22) (Argument 0) (ConstantInt 64 4198400)
                    (ConstantInt 64 4198403)
                    eq_refl eq_refl eq_refl eq_refl eq_refl) 1 0);
      reflexivity.
  - apply (proj2 (Terminate_runtime_condition 0 demo_jcc_unlinked
                    (demo_block demo_jcc_unlinked 0)
                    (demo_body demo_jcc_unlinked 0)
                    (InstRef 22) (Argument 0) (ConstantInt 64 4198400)
                    (ConstantInt 64 4198403)
                    eq_refl eq_refl eq_refl eq_refl eq_refl)).
    left. reflexivity.
Defined.

(** The stub branch on the example: the selector is a function
    argument. *)
Lemma Terminate_not_a_select_emits_nothing_witness :
  new_rip (demo_block demo_plain 0) = Some (Argument 7) ∧
  ∃ s', Terminate 0 demo_plain = Done tt s' ∧
    insts s' = insts demo_plain ∧ llvm_bbs s' = llvm_bbs demo_plain ∧
    blocks s' = blocks demo_plain ∧ output s' = output demo_plain.
Proof.
  split; [reflexivity|].
  apply (Terminate_not_a_select_emits_nothing 0 demo_plain
           (demo_block demo_plain 0) (Argument 7));
    first [reflexivity|exact I].
Defined.

(** The prologue on the example: a three-byte instruction at 0x401000. *)
Lemma AddInst_prologue_before_dispatch_witness :
  ∃ s0 blk0,
    AddInst demo_opcodes 0 (demo_instr 0) demo_linked = Done tt s0 ∧
    blocks s0 !! 0 = Some blk0 ∧
    RegFile.GetReg (regfile blk0) (mkLLReg LL_RT_IP 0) Facet.I64
      = Some (ConstantInt 64 4198403) ∧
    emitted demo_linked s0 0
      [CallInst donothing;
       SelectInst (ConstantInt 1 0) (ConstantInt 64 4198403)
         (ConstantInt 64 4198403)] ∧
    ∃ sel, new_rip blk0 = Some sel ∧
      select_operands s0 sel
        = Some (ConstantInt 1 0, ConstantInt 64 4198403,
                ConstantInt 64 4198403).
Proof.
  destruct (AddInst_prologue_before_dispatch demo_opcodes 0 (demo_instr 0)
              demo_linked (demo_block demo_linked 0)
              (demo_body demo_linked 0) eq_refl eq_refl)
    as (s0 & blk0 & Hrun & Hb & _ & Hreg & _ & _ & _ & Hem & Hsel).
  exists s0, blk0. by split_and!.
Defined.

(** The default case on the example: opcode 99 is not in the table. *)
Lemma AddInst_unrecognized_opcode_witness :
  ∃ s', AddInst demo_opcodes 0 (demo_instr 99) demo_linked
          = Stop Unreachable s' ∧
    output s' = [CouldNotHandle 4198400] ∧
    (AddInst demo_opcodes 0 (demo_instr 99) ;;; Terminate 0 ;;; ret tt)
      demo_linked = Stop Unreachable s'.
Proof.
  destruct (AddInst_unrecognized_opcode demo_opcodes 0 (demo_instr 99)
              demo_linked (demo_block demo_linked 0)
              (demo_body demo_linked 0) eq_refl eq_refl eq_refl)
    as (s' & Hrun & Hout & _ & _ & Hseq).
  exists s'. split_and!; [done|done|]. apply (Hseq (λ _, ret tt)).
Defined.

(** Placeholder creation on the example: four register facets and six
    flags. *)
Lemma AddPhis_creates_placeholders_witness :
  ∃ s' blk',
    AddPhis demo_flags 0 demo_created = Done tt s' ∧
    blocks s' !! 0 = Some blk' ∧
    emitted demo_created s' 0
      [PHINode (IntTy 64) []; PHINode (IntTy 32) []; PHINode (IntTy 64) [];
       PHINode (IntTy 128) []; PHINode (IntTy 1) []; PHINode (IntTy 1) [];
       PHINode (IntTy 1) []; PHINode (IntTy 1) []; PHINode (IntTy 1) [];
       PHINode (IntTy 1) []] ∧
    placeholder blk' (SlotReg (mkLLReg LL_RT_GP64 0) Facet.I32)
      = Some (InstRef 1) ∧
    RegFile.GetReg (regfile blk') (mkLLReg LL_RT_GP64 0) Facet.I64
      = Some (InstRef 0) ∧
    RegFile.GetReg (regfile blk') (mkLLReg LL_RT_GP64 0) Facet.I32
      = Some (InstRef 1) ∧
    RegFile.GetFlag (regfile blk') 5 = Some (InstRef 9).
Proof.
  destruct (AddPhis_creates_placeholders demo_flags 0 demo_created
              (demo_block demo_created 0) (demo_body demo_created 0))
    as (s' & blk' & Hrun & Hb & _ & _ & Hem & Hpos & _).
  - reflexivity.
  - reflexivity.
  - by_computation.
  - exists s', blk'.
    split; [exact Hrun|]. split; [exact Hb|]. split; [exact Hem|].
    split; [|split; [|split]].
    + exact (proj1 (Hpos 1 (SlotReg (mkLLReg LL_RT_GP64 0) Facet.I32)
                      eq_refl)).
    + exact (proj2 (proj2 (Hpos 0 (SlotReg (mkLLReg LL_RT_GP64 0) Facet.I64)
                             eq_refl))).
    + exact (proj2 (proj2 (Hpos 1 (SlotReg (mkLLReg LL_RT_GP64 0) Facet.I32)
                             eq_refl))).
    + exact (proj2 (proj2 (Hpos 9 (SlotFlag 5) eq_refl))).
Defined.

(** Backfill on the example: block 0 has itself and block 1 as
    predecessors. *)
Lemma FillPhis_fills_every_placeholder_witness :
  preds (demo_block demo_linked 0) = [0; 1] ∧
  ∃ s', FillPhis demo_flags 0 demo_linked = Done tt s' ∧
    blocks s' = blocks demo_linked ∧
    insts s' !! 1 = Some (PHINode (IntTy 32) [(InstRef 1, 0); (InstRef 11, 1)]) ∧
    ∀ x, required demo_flags (demo_block demo_linked 0) x →
      ∃ inc,
        placeholder (demo_block demo_linked 0) x ≫= incoming s' = Some inc ∧
        length inc = 2 ∧
        Some <$> inc = incoming_from demo_linked x <$> [0; 1].
Proof.
  split; [reflexivity|].
  destruct (FillPhis_fills_every_placeholder demo_flags 0 demo_linked
              (demo_block demo_linked 0))
    as (s' & Hrun & Hbl & Hfill).
  - reflexivity.
  - by_computation.
  - by_computation.
  - by_computation.
  - exists s'. split; [exact Hrun|]. split; [exact Hbl|].
    split; [|exact Hfill].
    vm_compute in Hrun. injection Hrun as <-. reflexivity.
Defined.

(** * Further properties *)

(** ** More on terminator resolution *)

(** A computation that only reads leaves the store it started from. *)
Lemma final_bind_read {A B} (m : M A) (k : A → M B) (P : Store → Prop) s :
  frames eq m → P s → (∀ a, P (final (k a s))) → P (final (bind m k s)).
Proof.
  intros Hm Hs Hk. unfold bind. specialize (Hm s).
  destruct (m s) as [a s1|e s1]; simpl in Hm; subst s1; [apply Hk|done].
Qed.

Lemma frames_eq_successor_llvmBB p : frames eq (successor_llvmBB p).
Proof.
  unfold successor_llvmBB.
  apply (frames_bind eq (deref p)); [apply (frames_orStop eq)|].
  intros succ. apply (frames_block_llvmBB eq).
Qed.

Lemma frames_eq_dyn_cast_SelectInst v : frames eq (dyn_cast_SelectInst v).
Proof.
  intros s. unfold dyn_cast_SelectInst, bind, get.
  destruct v as [| |id|]; try done.
  by destruct (insts s !! id) as [[]|].
Qed.

Lemma frames_eq_assert c : frames eq (assert_ c).
Proof. by destruct c. Qed.

Lemma Insert_final i s :
  isTerminator i = true →
  at_most_a_terminator (insert_point s) s (final (Insert i s)).
Proof.
  intros Hi. unfold Insert, bind, get, modify; simpl.
  destruct (insert_point s) as [bb|] eqn:Hip; simpl.
  - destruct (llvm_bbs s !! bb) as [body|] eqn:Hbb; simpl.
    + split_and!; try done; [right; by exists i|].
      intros bb' Hne. cbn [llvm_bbs set_llvm_bbs].
      rewrite list_lookup_insert_ne; [done|congruence].
    + split_and!; try done. right. by exists i.
  - split_and!; try done. right. by exists i.
Qed.

Lemma jump_final p s :
  at_most_a_terminator (insert_point s) s
    (final ((let! dest := successor_llvmBB p in CreateBr dest ;;; ret tt) s)).
Proof.
  apply final_bind_read; [apply frames_eq_successor_llvmBB| |].
  - by split_and!; [..|left|].
  - intros dest. unfold CreateBr, bind.
    pose proof (Insert_final (BranchInst dest) s eq_refl) as H.
    by destruct (Insert (BranchInst dest) s).
Qed.

Lemma at_most_a_terminator_current b blk s s' :
  at_most_a_terminator (Some (llvmBB blk)) (made_current b blk s) s' →
  at_most_a_terminator (Some (llvmBB blk)) s s'.
Proof. done. Qed.

(** Whatever the selector and the edges are, and whether it returns or
    stops, [Terminate] leaves every block object (register files,
    predecessor vectors, placeholders) and the output as they were,
    creates at most one instruction, which is then a terminator, and
    changes no LLVM block but the block's own. *)
Theorem Terminate_creates_at_most_a_terminator b s :
  at_most_a_terminator (llvmBB <$> blocks s !! b) s (final (Terminate b s)).
Proof.
  destruct (blocks s !! b) as [blk|] eqn:Hb; simpl.
  2:{ unfold Terminate, SetCurrent, block, bind, get, orStop. rewrite Hb.
      simpl. by split_and!; [..|left|]. }
  rewrite (Terminate_start _ _ _ Hb).
  apply (at_most_a_terminator_current b).
  assert (Hnone : at_most_a_terminator (Some (llvmBB blk))
                    (made_current b blk s) (made_current b blk s))
    by by split_and!; [..|left|].
  destruct (new_rip blk) as [v|]; [|apply jump_final].
  apply final_bind_read; [apply frames_eq_dyn_cast_SelectInst|done|].
  intros [[[cond t] f]|]; [|done].
  destruct (isa_Constant cond).
  - apply final_bind_read; [apply frames_eq_assert|done|]. intros [].
    destruct (isNullValue cond); apply jump_final.
  - destruct (negb (isa_UndefValue cond)); [|done].
    apply final_bind_read; [apply frames_eq_assert|done|]. intros [].
    apply final_bind_read; [apply frames_eq_successor_llvmBB|done|].
    intros ifTrue.
    apply final_bind_read; [apply frames_eq_successor_llvmBB|done|].
    intros ifFalse. unfold CreateCondBr, bind.
    pose proof (Insert_final (CondBranchInst cond ifTrue ifFalse)
                  (made_current b blk s) eq_refl) as H.
    by destruct (Insert _ (made_current b blk s)).
Qed.

(** The assertion on the edges is weaker than what the constant rows
    need, and the row without a selector has none: when the successor a
    row jumps to is null, [Terminate] dereferences the null pointer. *)
Theorem Terminate_null_successor b s blk :
  blocks s !! b = Some blk →
  (new_rip blk = None → nextFallThrough blk = None →
   Terminate b s = Stop NullDereference (made_current b blk s)) ∧
  (∀ v cond t f,
     new_rip blk = Some v →
     select_operands s v = Some (cond, t, f) →
     isa_Constant cond = true →
     (nextBranch blk = None → nextFallThrough blk = None →
      Terminate b s = Stop AssertionFailed (made_current b blk s)) ∧
     (isNullValue cond = true →
      is_Some (nextBranch blk) → nextFallThrough blk = None →
      Terminate b s = Stop NullDereference (made_current b blk s)) ∧
     (isNullValue cond = false →
      nextBranch blk = None → is_Some (nextFallThrough blk) →
      Terminate b s = Stop NullDereference (made_current b blk s))).
Proof.
  intros Hb. split.
  - intros Hnr Hft. by rewrite (Terminate_start _ _ _ Hb), Hnr, Hft.
  - intros v cond t f Hnr Hsel Hc.
    rewrite (Terminate_select _ _ _ _ _ Hb Hnr Hsel), Hc.
    split_and!.
    + by intros -> ->.
    + intros -> [br ->] ->. done.
    + intros -> -> [ft ->]. done.
Qed.

(** ** More on edge registration *)

(** [AddBranches] creates no IR and, unlike [AddPhis], [AddInst] and
    [Terminate], does not make its block current: instructions, LLVM
    blocks, the builder's insertion point, [state.regfile] and the output
    are as before, no block object is created, and of every block the
    LLVM block, the register file, the placeholder arrays and the
    selector are as before. *)
Theorem AddBranches_touches_only_edges b branch fallThrough s :
  is_Some (blocks s !! b) →
  (∀ x, branch = Some x ∨ fallThrough = Some x → is_Some (blocks s !! x)) →
  ∃ s', AddBranches b branch fallThrough s = Done tt s' ∧
    insts s' = insts s ∧ llvm_bbs s' = llvm_bbs s ∧
    insert_point s' = insert_point s ∧
    state_regfile s' = state_regfile s ∧ output s' = output s ∧
    length (blocks s') = length (blocks s) ∧
    ∀ x,
      llvmBB <$> blocks s' !! x = llvmBB <$> blocks s !! x ∧
      regfile <$> blocks s' !! x = regfile <$> blocks s !! x ∧
      phis_gp <$> blocks s' !! x = phis_gp <$> blocks s !! x ∧
      phis_sse <$> blocks s' !! x = phis_sse <$> blocks s !! x ∧
      phiFlags <$> blocks s' !! x = phiFlags <$> blocks s !! x ∧
      new_rip <$> blocks s' !! x = new_rip <$> blocks s !! x.
Proof.
  intros Hb Hv. eexists. split; [by apply AddBranches_run|].
  simpl. split_and!; try done.
  - apply Nat.le_antisymm; apply Nat.nlt_ge; intros Hlt.
    + apply lookup_lt_is_Some_2, AddBranches_blocks_valid in Hlt.
      apply lookup_lt_is_Some_1 in Hlt. lia.
    + apply lookup_lt_is_Some_2 in Hlt.
      apply (AddBranches_blocks_valid b branch fallThrough) in Hlt.
      apply lookup_lt_is_Some_1 in Hlt. lia.
  - intros x. rewrite AddBranches_blocks_lookup.
    by destruct (blocks s !! x).
Qed.

(** Two calls on the same block: the predecessor entries of both calls
    stay, in call order, while for each successor pointer the later
    non-null argument wins.  So a block that re-registers its taken
    branch from [x] to another block [y] stays in the predecessor vector
    of [x]. *)
Theorem AddBranches_second_call_overrides b br1 ft1 br2 ft2 s :
  is_Some (blocks s !! b) →
  (∀ x, br1 = Some x ∨ ft1 = Some x ∨ br2 = Some x ∨ ft2 = Some x →
        is_Some (blocks s !! x)) →
  ∃ s1 s2,
    AddBranches b br1 ft1 s = Done tt s1 ∧
    AddBranches b br2 ft2 s1 = Done tt s2 ∧
    (∀ x, preds_of s2 x =
            (λ p, p ++ edge_entries b br1 ft1 x ++ edge_entries b br2 ft2 x)
              <$> preds_of s x) ∧
    (nextBranch <$> blocks s2 !! b =
       (λ blk, from_option Some (from_option Some (nextBranch blk) br1) br2)
         <$> blocks s !! b) ∧
    (nextFallThrough <$> blocks s2 !! b =
       (λ blk, from_option Some
                 (from_option Some (nextFallThrough blk) ft1) ft2)
         <$> blocks s !! b) ∧
    (∀ x y, br1 = Some x → br2 = Some y →
       nextBranch <$> blocks s2 !! b = Some (Some y) ∧
       ∃ p, preds_of s2 x = Some p ∧ b ∈ p).
Proof.
  intros Hb Hv. do 2 eexists.
  split; [apply AddBranches_run; [done|]; intros x Hx; apply Hv; tauto|].
  split.
  { apply AddBranches_run; simpl.
    - by apply AddBranches_blocks_valid.
    - intros x Hx. apply AddBranches_blocks_valid, Hv. tauto. }
  unfold preds_of; simpl.
  assert (Hp : ∀ x,
    preds <$> AddBranches_blocks b br2 ft2
                (AddBranches_blocks b br1 ft1 (blocks s)) !! x
    = (λ p, p ++ edge_entries b br1 ft1 x ++ edge_entries b br2 ft2 x)
        <$> (preds <$> blocks s !! x)).
  { intros x. rewrite !AddBranches_blocks_lookup.
    destruct (blocks s !! x); simpl; [|done]. by rewrite <-(assoc_L (++)). }
  assert (Hn : nextBranch <$> AddBranches_blocks b br2 ft2
                 (AddBranches_blocks b br1 ft1 (blocks s)) !! b
    = (λ blk, from_option Some (from_option Some (nextBranch blk) br1) br2)
        <$> blocks s !! b).
  { rewrite !AddBranches_blocks_lookup.
    destruct (blocks s !! b); simpl; [|done].
    by rewrite !decide_True by done. }
  split; [exact Hp|]. split; [exact Hn|]. split.
  { rewrite !AddBranches_blocks_lookup.
    destruct (blocks s !! b); simpl; [|done].
    by rewrite !decide_True by done. }
  intros x y -> ->. split.
  - rewrite Hn. destruct Hb as [blk ->]. done.
  - rewrite Hp. destruct (Hv x) as [blkx Hx]; [tauto|]. rewrite Hx. simpl.
    eexists. split; [done|]. unfold edge_entries at 1.
    rewrite decide_True by done. rewrite !elem_of_app. right. left. left.
    by left.
Qed.

(** ** More on backfill *)

#[local] Instance phis_only_grow_refl : Reflexive phis_only_grow.
Proof.
  intros s. split; [done|]. intros n [ty inc| | | |] Hn; try done.
  exists []. by rewrite app_nil_r.
Qed.

#[local] Instance phis_only_grow_trans : Transitive phis_only_grow.
Proof.
  intros s1 s2 s3 [Hl12 H12] [Hl23 H23]. split; [congruence|].
  intros n i Hn. specialize (H12 n i Hn).
  destruct i as [ty inc| | | |];
    try (by apply (H23 n _ H12)).
  destruct H12 as [new1 H12]. destruct (H23 n _ H12) as [new2 H3].
  exists (new1 ++ new2). by rewrite (assoc_L (++)).
Qed.

Lemma phis_only_grow_addIncoming phi v bb :
  frames phis_only_grow (addIncoming phi v bb).
Proof.
  intros s. unfold addIncoming, bind, get.
  destruct (insts s !! phi) as [[ty inc| | | |]|] eqn:Hphi; try done.
  unfold modify, phis_only_grow. cbn [final insts set_insts].
  split; [by rewrite length_insert|].
  intros n i Hn. destruct (decide (n = phi)) as [->|Hne].
  - rewrite Hphi in Hn. injection Hn as <-.
    exists [(v, bb)].
    by rewrite list_lookup_insert_eq by by eapply lookup_lt_Some.
  - rewrite list_lookup_insert_ne by done.
    destruct i as [ty' inc'| | | |]; try done.
    exists []. by rewrite app_nil_r.
Qed.

Lemma phis_only_grow_FillPhis_pred RFLAG_Max b pred :
  frames phis_only_grow (FillPhis_pred RFLAG_Max b pred).
Proof.
  unfold FillPhis_pred.
  repeat first
    [ apply frames_for; intros
    | apply frames_phis_entry | apply frames_phis_at
    | apply frames_cast_PHINode | apply frames_regfile_GetReg
    | apply frames_regfile_GetFlag | apply frames_block_llvmBB
    | apply frames_phiFlags_at | apply frames_orStop
    | apply phis_only_grow_addIncoming | apply _
    | apply frames_bind; [..|intros] ].
Qed.

Lemma phis_only_grow_same_insts s s' :
  insts s' = insts s → phis_only_grow s s'.
Proof.
  intros Heq. split; [by rewrite Heq|]. rewrite Heq.
  intros n [ty inc| | | |] Hn; try done.
  exists []. by rewrite app_nil_r.
Qed.

Lemma FillPhis_phis_only_grow RFLAG_Max b s :
  phis_only_grow s (final (FillPhis RFLAG_Max b s)).
Proof.
  rewrite FillPhis_run. destruct (blocks s !! b) as [this|].
  - trans (set_state_regfile None s); [by apply phis_only_grow_same_insts|].
    apply (frames_for phis_only_grow (preds this) _
             (phis_only_grow_FillPhis_pred RFLAG_Max b)
             (set_state_regfile None s)).
  - by apply phis_only_grow_same_insts.
Qed.

(** Whether it returns or stops, [FillPhis] creates and removes no
    instruction, leaves every instruction that is no PHI node as it was,
    and of a PHI node changes neither the type nor the incoming pairs it
    had: it only appends pairs. *)
Theorem FillPhis_only_appends_to_phis RFLAG_Max b s :
  phis_only_grow s (final (FillPhis RFLAG_Max b s)) ∧
  llvm_bbs (final (FillPhis RFLAG_Max b s)) = llvm_bbs s ∧
  output (final (FillPhis RFLAG_Max b s)) = output s.
Proof.
  split; [apply FillPhis_phis_only_grow|].
  rewrite FillPhis_run. destruct (blocks s !! b) as [this|]; [|done].
  destruct (frames_for only_insts_change (preds this) _
              (frames_FillPhis_pred RFLAG_Max b)
              (set_state_regfile None s)) as (Hbbs & _ & _ & _ & Hout).
  by rewrite Hbbs, Hout.
Qed.

Lemma backfill_onto_step RFLAG_Max s0 b blk jobs p x s :
  blocks s0 !! b = Some blk →
  NoDup (placeholder blk <$> slots RFLAG_Max blk) →
  backfilled_onto RFLAG_Max s0 blk jobs s →
  x ∈ slots RFLAG_Max blk →
  is_Some (incoming_from s0 x p) →
  ∃ s', backfill b p x s = Done tt s' ∧
        backfilled_onto RFLAG_Max s0 blk (jobs ++ [(p, x)]) s'.
Proof.
  intros Hb Hnd [Hframe Hinv] Hx [[v bb] Hin].
  pose proof Hframe as (Hbbs & Hip & Hrf & Hbl & Hout).
  destruct (Hinv x Hx) as (inc0 & new & Hinc0 & Hinc & Hjobs).
  destruct (placeholder blk x) as [ph|] eqn:Hph; [|done]. simpl in Hinc.
  destruct (incoming_Some _ _ _ Hinc) as (n & ty & -> & Hn).
  destruct (incoming_from_Some _ _ _ _ Hin) as (pblk & Hp & Hread & Hbb).
  simpl in Hread, Hbb. subst bb.
  assert (Hrun : backfill b p x s =
            Done tt (set_insts
                       (<[n := PHINode ty
                                 ((inc0 ++ new) ++ [(v, llvmBB pblk)])]>
                          (insts s)) s)).
  { destruct x as [reg facet|j]; simpl in Hph, Hread |- *.
    - destruct (kind_phis (rt reg) blk !! ri reg) as [e|] eqn:He; [|done].
      simpl in Hph.
      destruct (at_ e facet) as [[w|]|] eqn:Hat; simplify_eq/=.
      erewrite bind_Done
        by (eapply phis_at_run; [by rewrite Hbl|exact He|exact Hat]).
      rewrite (bind_Done _ _ _ _ _ (cast_PHINode_run _ _ _ _ Hn)).
      erewrite bind_Done
        by (eapply regfile_GetReg_run; [by rewrite Hbl|exact Hread]).
      erewrite bind_Done by (eapply block_llvmBB_run; by rewrite Hbl).
      by apply addIncoming_run.
    - destruct (phiFlags blk !! j) as [[m|]|] eqn:Hfl; simplify_eq/=.
      erewrite bind_Done
        by (eapply regfile_GetFlag_run; [by rewrite Hbl|exact Hread]).
      rewrite bind_bind.
      erewrite bind_Done
        by (eapply phiFlags_at_run; [by rewrite Hbl|exact Hfl]).
      unfold deref, orStop. rewrite bind_ret.
      erewrite bind_Done by (eapply block_llvmBB_run; by rewrite Hbl).
      by apply addIncoming_run. }
  eexists. split; [exact Hrun|]. split; [done|].
  intros y Hy.
  destruct (Hinv y Hy) as (incy0 & newy & Hincy0 & Hincy & Hjobsy).
  rewrite filter_app, fmap_app.
  destruct (decide (y = x)) as [->|Hne].
  - exists inc0, (new ++ [(v, llvmBB pblk)]).
    split_and!; [by rewrite Hph| |].
    + rewrite Hph. simpl.
      rewrite list_lookup_insert_eq by by eapply lookup_lt_Some.
      by rewrite (assoc_L (++)).
    + rewrite fmap_app, Hjobs. f_equal.
      rewrite filter_cons_True by done. simpl. by rewrite Hin.
  - exists incy0, newy. split_and!; [done| |].
    + destruct (placeholder blk y) as [phy|] eqn:Hphy; [|done].
      simpl in Hincy |- *.
      destruct (incoming_Some _ _ _ Hincy) as (m & tym & -> & Hm).
      cbn [incoming set_insts insts].
      rewrite list_lookup_insert_ne; [by rewrite Hm|].
      intros <-. apply Hne.
      apply list_elem_of_lookup_1 in Hx as [i Hi].
      apply list_elem_of_lookup_1 in Hy as [j Hj].
      assert (i = j) as ->; [|congruence].
      eapply (NoDup_lookup _ _ _ (Some (InstRef n)) Hnd);
        rewrite list_lookup_fmap; [by rewrite Hi; simpl; rewrite Hph
                                  |by rewrite Hj; simpl; rewrite Hphy].
    + rewrite filter_cons_False by (simpl; congruence).
      by rewrite filter_nil, app_nil_r.
Qed.

(** [FillPhis] on placeholders that are distinct PHI nodes: each gets,
    after the incoming pairs it has, one pair per predecessor. *)
Lemma FillPhis_appends RFLAG_Max b s blk :
  blocks s !! b = Some blk →
  wf_block RFLAG_Max blk →
  placeholders_distinct RFLAG_Max s blk →
  preds_readable RFLAG_Max s blk →
  ∃ s', FillPhis RFLAG_Max b s = Done tt s' ∧
    only_insts_change (set_state_regfile None s) s' ∧
    ∀ x, x ∈ slots RFLAG_Max blk →
      ∃ inc0 new,
        placeholder blk x ≫= incoming s = Some inc0 ∧
        placeholder blk x ≫= incoming s' = Some (inc0 ++ new) ∧
        Some <$> new = incoming_from s x <$> preds blk.
Proof.
  intros Hb Hwf [Hphi Hnd] Hread.
  rewrite FillPhis_run, Hb.
  set (s0 := set_state_regfile None s).
  destruct (for_inv
    (λ pre s1, backfilled_onto RFLAG_Max s0 blk
                 (pre ≫= λ p, pair p <$> slots RFLAG_Max blk) s1)
    (FillPhis_pred RFLAG_Max b) (preds blk)) with (s := s0)
    as (s' & Hrun & [Hframe Hinv]).
  - intros pre p post s1 Hpreds Hpre.
    rewrite bind_app, bind_singleton.
    rewrite FillPhis_pred_loops.
    apply (slot_loops_inv
      (λ done s2, backfilled_onto RFLAG_Max s0 blk
         ((pre ≫= λ p, pair p <$> slots RFLAG_Max blk)
            ++ (pair p <$> done)) s2));
      [done| | |by rewrite app_nil_r].
    + intros done s2 [(_ & _ & _ & Hbl & _) _]. exists blk. by rewrite Hbl.
    + intros done x s2 Hdone _ Hx.
      rewrite fmap_app, (assoc_L (++)).
      apply (backfill_onto_step RFLAG_Max s0 b blk); try done.
      unfold preds_readable in Hread. rewrite Forall_forall in Hread.
      assert (Hp : p ∈ preds blk).
      { rewrite Hpreds. apply elem_of_app. right. by left. }
      specialize (Hread p Hp). rewrite Forall_forall in Hread.
      by apply Hread.
  - split; [done|]. intros x Hx.
    rewrite Forall_forall in Hphi. destruct (Hphi x Hx) as [inc0 Hinc0].
    exists inc0, []. by rewrite app_nil_r.
  - exists s'. split; [done|]. split; [done|].
    intros x Hx.
    destruct (Hinv x Hx) as (inc0 & new & Hinc0 & Hinc & Hjobs).
    rewrite filter_position_jobs in Hjobs
      by (by apply NoDup_slots || done).
    rewrite <-list_fmap_compose in Hjobs.
    by exists inc0, new.
Qed.

Lemma incoming_from_blocks s s' x p :
  blocks s' = blocks s → incoming_from s' x p = incoming_from s x p.
Proof. intros Heq. unfold incoming_from. by rewrite Heq. Qed.

Lemma preds_readable_blocks RFLAG_Max s s' blk :
  blocks s' = blocks s →
  preds_readable RFLAG_Max s blk → preds_readable RFLAG_Max s' blk.
Proof.
  intros Heq H. unfold preds_readable in *.
  eapply Forall_impl; [exact H|]. intros p Hp.
  eapply Forall_impl; [exact Hp|]. intros x.
  by rewrite (incoming_from_blocks s s').
Qed.

(** [FillPhis] has no guard against a second run: the placeholders need
    not be without inputs, each gets one pair per predecessor after the
    pairs it has, and after two runs it has every pair twice. *)
Theorem FillPhis_twice_duplicates_inputs RFLAG_Max b s blk :
  blocks s !! b = Some blk →
  wf_block RFLAG_Max blk →
  placeholders_distinct RFLAG_Max s blk →
  preds_readable RFLAG_Max s blk →
  ∃ s1 s2,
    FillPhis RFLAG_Max b s = Done tt s1 ∧
    FillPhis RFLAG_Max b s1 = Done tt s2 ∧
    ∀ x, required RFLAG_Max blk x →
      ∃ inc0 new,
        placeholder blk x ≫= incoming s = Some inc0 ∧
        placeholder blk x ≫= incoming s1 = Some (inc0 ++ new) ∧
        placeholder blk x ≫= incoming s2 = Some (inc0 ++ new ++ new) ∧
        Some <$> new = incoming_from s x <$> preds blk.
Proof.
  intros Hb Hwf Hdist Hread.
  destruct (FillPhis_appends _ _ _ _ Hb Hwf Hdist Hread)
    as (s1 & Hrun1 & (_ & _ & _ & Hbl1 & _) & H1).
  change (blocks (set_state_regfile None s)) with (blocks s) in Hbl1.
  assert (Hb1 : blocks s1 !! b = Some blk) by by rewrite Hbl1.
  assert (Hdist1 : placeholders_distinct RFLAG_Max s1 blk).
  { destruct Hdist as [_ Hnd]. split; [|done].
    apply Forall_forall. intros x Hx.
    destruct (H1 x Hx) as (inc0 & new & _ & -> & _). by eexists. }
  pose proof (preds_readable_blocks _ _ _ _ Hbl1 Hread) as Hread1.
  destruct (FillPhis_appends _ _ _ _ Hb1 Hwf Hdist1 Hread1)
    as (s2 & Hrun2 & _ & H2).
  exists s1, s2. split; [done|]. split; [done|].
  intros x Hx%elem_of_slots.
  destruct (H1 x Hx) as (inc0 & new & Hinc0 & Hinc1 & Hnew).
  destruct (H2 x Hx) as (inc1 & new' & Hinc1' & Hinc2 & Hnew').
  rewrite Hinc1 in Hinc1'. injection Hinc1' as <-.
  assert (new' = new) as ->.
  { apply (inj (fmap Some)). rewrite Hnew, Hnew'.
    apply list_fmap_ext. intros _ p _. by apply incoming_from_blocks. }
  exists inc0, new. by rewrite <-(assoc_L (++)) in Hinc2.
Qed.

(** The two ends of [FillPhis].  Without a predecessor it only nulls
    [state.regfile]: every placeholder stays as it is.  With a
    predecessor and the null pointer still in the first facet of register
    0 ([AddPhis] has not run) it stops at the first [cast<PHINode>],
    having changed no instruction. *)
Theorem FillPhis_without_predecessors_or_placeholders RFLAG_Max b s blk :
  blocks s !! b = Some blk →
  (preds blk = [] →
   FillPhis RFLAG_Max b s = Done tt (set_state_regfile None s)) ∧
  (∀ p ps facet entry,
     preds blk = p :: ps →
     phis_gp blk !! 0 = Some ((facet, None) :: entry) →
     FillPhis RFLAG_Max b s = Stop BadCast (set_state_regfile None s)).
Proof.
  intros Hb. split.
  - intros Hp. by rewrite FillPhis_run, Hb, Hp.
  - intros p ps facet entry Hp He. rewrite FillPhis_run, Hb, Hp.
    set (s0 := set_state_regfile None s).
    assert (Hb0 : blocks s0 !! b = Some blk) by done.
    cbn [for_]. apply bind_Stop.
    unfold FillPhis_pred. apply bind_Stop.
    change (seq 0 LL_RI_GPMax) with (0 :: seq 1 15). cbn [for_].
    apply bind_Stop.
    rewrite (bind_Done _ _ _ _ _ (phis_entry_run _ _ _ _ _ _ Hb0 He)).
    cbn [facets fmap list_fmap fst for_]. apply bind_Stop.
    erewrite bind_Done.
    2:{ eapply phis_at_run; [exact Hb0|exact He|].
        simpl. by rewrite decide_True. }
    done.
Qed.

(** ** More on placeholder creation *)

Lemma emitted_trans s0 s1 s2 bb new1 new2 :
  emitted s0 s1 bb new1 → emitted s1 s2 bb new2 →
  emitted s0 s2 bb (new1 ++ new2).
Proof.
  intros [Hi1 (body0 & Hb0 & Hbbs1)] [Hi2 (body1 & Hb1 & Hbbs2)]. split.
  - by rewrite Hi2, Hi1, (assoc_L (++)).
  - exists body0. split; [done|].
    rewrite Hbbs1 in Hb1.
    rewrite list_lookup_insert_eq in Hb1 by by eapply lookup_lt_Some.
    injection Hb1 as <-.
    rewrite Hbbs2, Hbbs1, list_insert_insert_eq, Hi1.
    by rewrite !length_app, seq_app, (assoc_L (++)).
Qed.

(** What [phis_installed] of all positions says of the block. *)
Lemma phis_installed_fresh RFLAG_Max s b blk s' blk' :
  wf_block RFLAG_Max blk →
  phis_installed s b blk (slots RFLAG_Max blk) s' →
  blocks s' !! b = Some blk' →
  wf_block RFLAG_Max blk' ∧
  slots RFLAG_Max blk' = slots RFLAG_Max blk ∧
  placeholders_fresh RFLAG_Max s' blk'.
Proof.
  intros Hwf (blk1 & Hb1 & _ & _ & _ & _ & Hem & _ & _ & _ & _
              & _ & Hgp & Hsse & Hfl & Hdone & _) Hb'.
  rewrite Hb' in Hb1. injection Hb1 as <-.
  assert (Hslots : slots RFLAG_Max blk' = slots RFLAG_Max blk).
  { unfold slots.
    by rewrite (reg_slots_facets _ _ _ _ Hgp), (reg_slots_facets _ _ _ _ Hsse). }
  split; [|split; [done|]].
  - destruct Hwf as (Hlgp & Hlsse & Hlfl & Hngp & Hnsse).
    split_and!.
    + apply (f_equal length) in Hgp. rewrite !length_fmap in Hgp.
      congruence.
    + apply (f_equal length) in Hsse. rewrite !length_fmap in Hsse.
      congruence.
    + congruence.
    + apply (Forall_fmap facets (λ fs, NoDup fs)). rewrite Hgp.
      by apply Forall_fmap.
    + apply (Forall_fmap facets (λ fs, NoDup fs)). rewrite Hsse.
      by apply Forall_fmap.
  - unfold placeholders_fresh. rewrite Hslots. split.
    + apply Forall_lookup. intros k x Hk.
      destruct (Hdone k x Hk) as [-> _]. simpl.
      destruct Hem as [-> _]. rewrite lookup_app_r by lia.
      replace (length (insts s) + k - length (insts s)) with k by lia.
      by rewrite list_lookup_fmap, Hk.
    + apply NoDup_alt. intros i j v Hi Hj.
      rewrite list_lookup_fmap in Hi, Hj.
      destruct (slots RFLAG_Max blk !! i) as [x|] eqn:Hxi; [|done].
      destruct (slots RFLAG_Max blk !! j) as [y|] eqn:Hyj; [|done].
      destruct (Hdone i x Hxi) as [Hpx _].
      destruct (Hdone j y Hyj) as [Hpy _].
      simpl in Hi, Hj. rewrite Hpx in Hi. rewrite Hpy in Hj.
      simplify_eq. lia.
Qed.

(** [AddPhis] has no guard against a second run either: it creates a
    second node per position and stores that one in the placeholder
    arrays and the register file.  The nodes of the first run stay in the
    LLVM block, without incoming values and out of reach of
    [FillPhis]. *)
Theorem AddPhis_twice_orphans_first_nodes RFLAG_Max b s blk body :
  blocks s !! b = Some blk →
  llvm_bbs s !! llvmBB blk = Some body →
  wf_block RFLAG_Max blk →
  ∃ s1 s2 blk2,
    AddPhis RFLAG_Max b s = Done tt s1 ∧
    AddPhis RFLAG_Max b s1 = Done tt s2 ∧
    blocks s2 !! b = Some blk2 ∧
    emitted s s2 (llvmBB blk)
      (((λ x, PHINode (slot_type x) []) <$> slots RFLAG_Max blk) ++
       ((λ x, PHINode (slot_type x) []) <$> slots RFLAG_Max blk)) ∧
    ∀ k x, slots RFLAG_Max blk !! k = Some x →
      placeholder blk2 x
        = Some (InstRef (length (insts s)
                         + length (slots RFLAG_Max blk) + k)) ∧
      read_slot (regfile blk2) x
        = Some (InstRef (length (insts s)
                         + length (slots RFLAG_Max blk) + k)) ∧
      insts s2 !! (length (insts s) + k) = Some (PHINode (slot_type x) []).
Proof.
  intros Hb Hbody Hwf.
  destruct (AddPhis_installed _ _ _ _ _ Hb Hbody Hwf) as (s1 & Hrun1 & H1).
  pose proof H1 as (blk1 & Hb1 & _ & _ & _ & _ & Hem1 & HllvmBB & _).
  destruct (phis_installed_fresh _ _ _ _ _ _ Hwf H1 Hb1)
    as (Hwf1 & Hslots & _).
  destruct (emitted_lookup _ _ _ _ Hem1) as [body1 Hbody1].
  rewrite <-HllvmBB in Hbody1.
  destruct (AddPhis_installed _ _ _ _ _ Hb1 Hbody1 Hwf1)
    as (s2 & Hrun2 & H2).
  pose proof H2 as (blk2 & Hb2 & _ & _ & _ & _ & Hem2 & _ & _ & _ & _
                      & _ & _ & _ & _ & Hdone2 & _).
  rewrite Hslots, HllvmBB in Hem2. rewrite Hslots in Hdone2.
  exists s1, s2, blk2. split_and!; try done.
  - by eapply emitted_trans.
  - intros k x Hk. destruct (Hdone2 k x Hk) as [Hp Hr].
    assert (Hn : length (insts s1)
                 = length (insts s) + length (slots RFLAG_Max blk)).
    { destruct Hem1 as [-> _]. by rewrite length_app, length_fmap. }
    rewrite Hn in Hp, Hr. split_and!; try done.
    destruct Hem2 as [-> _]. destruct Hem1 as [-> _].
    apply lookup_lt_Some in Hk as Hlt.
    rewrite lookup_app_l by (rewrite length_app, length_fmap; lia).
    rewrite lookup_app_r by lia.
    replace (length (insts s) + k - length (insts s)) with k by lia.
    by rewrite list_lookup_fmap, Hk.
Qed.

(** ** A block that is its own predecessor *)

Lemma placeholder_same_arrays blk blk' x :
  phis_gp blk' = phis_gp blk → phis_sse blk' = phis_sse blk →
  phiFlags blk' = phiFlags blk →
  placeholder blk' x = placeholder blk x.
Proof.
  intros Hgp Hsse Hfl. destruct x as [[t i] f|i]; simpl.
  - destruct t; simpl; by rewrite ?Hgp, ?Hsse.
  - by rewrite Hfl.
Qed.

Lemma slots_same_arrays RFLAG_Max blk blk' :
  phis_gp blk' = phis_gp blk → phis_sse blk' = phis_sse blk →
  slots RFLAG_Max blk' = slots RFLAG_Max blk.
Proof. intros Hgp Hsse. unfold slots. by rewrite Hgp, Hsse. Qed.

Lemma incoming_app s s' v inc new :
  insts s' = insts s ++ new →
  incoming s v = Some inc → incoming s' v = Some inc.
Proof.
  intros Hi Hinc. destruct (incoming_Some _ _ _ Hinc) as (n & ty & -> & Hn).
  simpl. by rewrite Hi, (lookup_app_l_Some _ _ _ _ Hn).
Qed.

(** A fresh block that registers itself as its fall-through successor,
    through the four phases.  Every placeholder ends with exactly one
    incoming pair, and since no instruction redefined the register the
    value of the pair is the placeholder itself, coming from the block's
    own LLVM block; the block consists of the placeholders and the jump
    to itself. *)
Theorem self_loop_placeholders_feed_themselves RFLAG_Max b s blk body :
  blocks s !! b = Some blk →
  llvm_bbs s !! llvmBB blk = Some body →
  wf_block RFLAG_Max blk →
  preds blk = [] →
  new_rip blk = None →
  ∃ s',
    (AddPhis RFLAG_Max b ;;; AddBranches b None (Some b) ;;;
     Terminate b ;;; FillPhis RFLAG_Max b) s = Done tt s' ∧
    llvm_bbs s' =
      <[llvmBB blk :=
          body ++ seq (length (insts s))
                    (length (slots RFLAG_Max blk) + 1)]> (llvm_bbs s) ∧
    length (insts s')
      = length (insts s) + length (slots RFLAG_Max blk) + 1 ∧
    insts s' !! (length (insts s) + length (slots RFLAG_Max blk))
      = Some (BranchInst (llvmBB blk)) ∧
    ∀ k x, slots RFLAG_Max blk !! k = Some x →
      insts s' !! (length (insts s) + k)
        = Some (PHINode (slot_type x)
                  [(InstRef (length (insts s) + k), llvmBB blk)]).
Proof.
  intros Hb Hbody Hwf Hpreds Hnr.
  (* AddPhis *)
  destruct (AddPhis_installed _ _ _ _ _ Hb Hbody Hwf) as (s1 & Hrun1 & H1).
  pose proof H1 as (blk1 & Hb1 & _ & _ & _ & _ & Hem1 & HllvmBB1 & _ & _
                      & Hpreds1 & Hnr1 & _ & _ & _ & Hdone1 & _).
  destruct (phis_installed_fresh _ _ _ _ _ _ Hwf H1 Hb1)
    as (Hwf1 & Hslots1 & [Hfresh1 Hnd1]).
  rewrite (bind_Done _ _ _ _ _ Hrun1).
  (* AddBranches *)
  rewrite (bind_Done _ _ _ _ _
             (AddBranches_run b None (Some b) s1 (mk_is_Some _ _ Hb1)
                ltac:(intros x [[=]|[= <-]]; by eexists))).
  set (s2 := set_blocks _ s1).
  set (blk2 := mkBasicBlock (llvmBB blk1) (regfile blk1) (nextBranch blk1)
                 (Some b) [b] (phis_gp blk1) (phis_sse blk1)
                 (phiFlags blk1) None).
  assert (Hb2 : blocks s2 !! b = Some blk2).
  { change (blocks s2)
      with (AddBranches_blocks b None (Some b) (blocks s1)).
    rewrite AddBranches_blocks_lookup, Hb1. simpl.
    unfold edge_entries. rewrite !decide_True by done.
    rewrite decide_False by done. simpl.
    rewrite decide_True by done.
    by rewrite Hpreds1, Hpreds, Hnr1, Hnr. }
  destruct (emitted_lookup _ _ _ _ Hem1) as [body1 Hbody1].
  assert (Hbody2 : llvm_bbs s2 !! llvmBB blk2 = Some body1)
    by (simpl; by rewrite HllvmBB1).
  (* Terminate *)
  destruct (jump_after_current b s2 blk2 body1 (Some b) b blk2
              Hb2 Hbody2 eq_refl Hb2)
    as (s3 & Hrun3 & Hem3 & Hbl3 & _).
  rewrite (bind_Done _ (λ _, FillPhis RFLAG_Max b) s2 tt s3).
  2:{ by rewrite (Terminate_start _ _ _ Hb2). }
  assert (Hem13 : emitted s1 s3 (llvmBB blk) [BranchInst (llvmBB blk)]).
  { by rewrite <-HllvmBB1. }
  pose proof (emitted_trans _ _ _ _ _ _ Hem1 Hem13) as Hem.
  (* FillPhis *)
  assert (Hb3 : blocks s3 !! b = Some blk2) by by rewrite Hbl3.
  assert (Hwf2 : wf_block RFLAG_Max blk2) by done.
  assert (Hsl2 : slots RFLAG_Max blk2 = slots RFLAG_Max blk)
    by by rewrite <-Hslots1.
  assert (Hph2 : ∀ x, placeholder blk2 x = placeholder blk1 x)
    by (intros x; by apply placeholder_same_arrays).
  assert (Hi3 : insts s3 = insts s1 ++ [BranchInst (llvmBB blk)])
    by by destruct Hem13.
  assert (Hfresh3 : ∀ x, x ∈ slots RFLAG_Max blk →
                         placeholder blk2 x ≫= incoming s3 = Some []).
  { intros x Hx. rewrite Forall_forall in Hfresh1.
    rewrite Hslots1 in Hfresh1. specialize (Hfresh1 x Hx).
    rewrite Hph2. destruct (placeholder blk1 x) as [v|]; [|done].
    simpl in *. by eapply incoming_app. }
  destruct (FillPhis_appends RFLAG_Max b s3 blk2 Hb3 Hwf2)
    as (s4 & Hrun4 & (Hbbs4 & _) & H4).
  { split.
    - rewrite Hsl2. apply Forall_forall. intros x Hx.
      rewrite (Hfresh3 x Hx). by eexists.
    - rewrite Hsl2. rewrite Hslots1 in Hnd1.
      replace (placeholder blk2 <$> slots RFLAG_Max blk)
        with (placeholder blk1 <$> slots RFLAG_Max blk); [done|].
      apply list_fmap_ext. intros ? x _. by rewrite Hph2. }
  { unfold preds_readable. rewrite Hsl2. simpl.
    constructor; [|constructor].
    apply Forall_lookup. intros k x Hk.
    destruct (Hdone1 k x Hk) as [_ Hr].
    unfold incoming_from. rewrite Hb3. simpl. rewrite Hr. by eexists. }
  pose proof (FillPhis_phis_only_grow RFLAG_Max b s3) as Hgrow.
  rewrite Hrun4 in Hgrow. simpl in Hgrow. destruct Hgrow as [Hlen Hgrow].
  exists s4. split; [exact Hrun4|].
  assert (Hn1 : length (insts s1)
                = length (insts s) + length (slots RFLAG_Max blk)).
  { destruct Hem1 as [-> _]. by rewrite length_app, length_fmap. }
  split_and!.
  - change (llvm_bbs (set_state_regfile None s3)) with (llvm_bbs s3)
      in Hbbs4.
    rewrite Hbbs4. destruct Hem as [_ (body0 & Hbody0 & ->)].
    rewrite Hbody in Hbody0. injection Hbody0 as <-.
    by rewrite length_app, length_fmap.
  - rewrite Hlen, Hi3, length_app, Hn1. simpl. lia.
  - apply (Hgrow _ (BranchInst (llvmBB blk))).
    rewrite Hi3, <-Hn1. by rewrite list_lookup_middle.
  - intros k x Hk.
    assert (Hx : x ∈ slots RFLAG_Max blk) by by eapply list_elem_of_lookup_2.
    assert (H3 : insts s3 !! (length (insts s) + k)
                 = Some (PHINode (slot_type x) [])).
    { rewrite Hi3. apply lookup_app_l_Some.
      destruct Hem1 as [-> _]. rewrite lookup_app_r by lia.
      replace (length (insts s) + k - length (insts s)) with k by lia.
      by rewrite list_lookup_fmap, Hk. }
    destruct (Hgrow _ _ H3) as [new' Hnew']. simpl in Hnew'.
    rewrite Hsl2 in H4.
    destruct (H4 x Hx) as (inc0 & new & Hinc0 & Hinc & Hnew).
    rewrite (Hfresh3 x Hx) in Hinc0. injection Hinc0 as <-.
    destruct (Hdone1 k x Hk) as [Hp Hr].
    rewrite Hph2, Hp in Hinc. simpl in Hinc. rewrite Hnew' in Hinc.
    injection Hinc as ->.
    simpl in Hnew. unfold incoming_from in Hnew.
    rewrite Hb3 in Hnew. simpl in Hnew. rewrite Hr in Hnew. simpl in Hnew.
    rewrite <-HllvmBB1.
    by destruct new as [|[v bb] [|? ?]]; simplify_eq/=.
Qed.

(** ** Straight-line code *)


Lemma AddInst_straight_line
    (opcodes : nat → option (LLInstr → BlockId → M unit))
    s b blk pre instr s1 h :
  opcodes (type_ instr) = Some h →
  (∀ s, h instr b s = Done tt s) →
  straight_line s b blk pre s1 →
  ∃ s2, AddInst opcodes b instr s1 = Done tt s2 ∧
        straight_line s b blk (pre ++ [instr]) s2.
Proof.
  intros Hop Hh (Hem & Hout & Hothers & blk1 & Hb1 & HllvmBB & Hbr & Hft & _).
  destruct (emitted_lookup _ _ _ _ Hem) as [body1 Hbody1].
  rewrite <-HllvmBB in Hbody1.
  exists (at_switch b blk1 body1 instr s1). split.
  { unfold AddInst.
    rewrite (bind_Done _ _ _ _ _
               (AddInst_prologue_run _ instr _ _ _ Hb1 Hbody1)).
    by rewrite Hop, Hh. }
  split; [|split; [done|split]].
  - rewrite bind_app.
    change ([instr] ≫= prologue_insts) with (prologue_insts instr).
    apply (emitted_trans _ _ _ _ _ _ Hem).
    rewrite <-HllvmBB. by apply at_switch_emitted.
  - intros x xblk Hx. destruct (Hothers x xblk Hx) as (xb & Hxb & Hxl).
    simpl. rewrite list_lookup_alter.
    destruct (decide (b = x)) as [->|_]; rewrite Hxb;
      eexists; (split; [done|]); by simpl.
  - eexists. split; [simpl; by rewrite list_lookup_alter_eq, Hb1|].
    simpl. rewrite last_snoc. split_and!; try done.
    + apply GetReg_SetReg_eq.
    + eexists. split; [done|]. simpl.
      rewrite lookup_app_r by lia.
      by replace (S (length (insts s1)) - length (insts s1)) with 1 by lia.
Qed.

(** A run of instructions whose handlers do nothing, followed by
    [Terminate]: the block gets the two prologue instructions of each
    instruction, in order, and then one jump to the fall-through
    successor, because the selector the last prologue left has the
    constant condition false.  With no instruction at all the same jump
    comes from the null selector.  The instruction pointer of the block's
    register file holds the address after the last instruction. *)
Theorem straight_line_block_falls_through
    (opcodes : nat → option (LLInstr → BlockId → M unit))
    b s blk body instrs x xblk :
  blocks s !! b = Some blk →
  llvm_bbs s !! llvmBB blk = Some body →
  Forall (λ i, ∃ h, opcodes (type_ i) = Some h ∧
                    ∀ s, h i b s = Done tt s) instrs →
  (instrs = [] → new_rip blk = None) →
  nextFallThrough blk = Some x →
  blocks s !! x = Some xblk →
  ∃ s' blk',
    (for_ instrs (AddInst opcodes b) ;;; Terminate b) s = Done tt s' ∧
    emitted s s' (llvmBB blk)
      ((instrs ≫= prologue_insts) ++ [BranchInst (llvmBB xblk)]) ∧
    output s' = output s ∧
    blocks s' !! b = Some blk' ∧
    ∀ i, last instrs = Some i →
      RegFile.GetReg (regfile blk') (mkLLReg LL_RT_IP 0) Facet.I64
        = Some (next_rip i).
Proof.
  intros Hb Hbody Hops Hnil Hft Hx.
  destruct (for_inv (straight_line s b blk) (AddInst opcodes b) instrs)
    with (s := s) as (s1 & Hrun1 & H1).
  { intros pre i post s0 -> HI.
    rewrite Forall_app, Forall_cons in Hops.
    destruct Hops as (_ & (h & Hop & Hh) & _).
    by eapply AddInst_straight_line. }
  { split; [|split; [done|split]].
    - apply emitted_nothing; by eauto.
    - intros; by eexists.
    - by exists blk. }
  destruct H1 as (Hem & Hout & Hothers & blk1 & Hb1 & HllvmBB & _ & Hft1
                  & Hlast).
  destruct (Hothers x xblk Hx) as (xb & Hxb & Hxl).
  destruct (emitted_lookup _ _ _ _ Hem) as [body1 Hbody1].
  rewrite <-HllvmBB in Hbody1. rewrite Hft in Hft1.
  assert (Hterm : Terminate_emits b s1 [BranchInst (llvmBB xb)]).
  { destruct (last instrs) as [i|] eqn:Hl.
    - destruct Hlast as (_ & v & Hnr & Hsel).
      by eapply (Terminate_constant b s1 blk1 body1 v getFalse).
    - apply last_None in Hl. rewrite (Hnil Hl) in Hlast.
      exists blk1.
      destruct (jump_after_current b s1 blk1 body1 _ x xb Hb1 Hbody1
                  Hft1 Hxb) as (s' & Hrun & Hem' & Hbl & Hout').
      exists s'. split; [done|]. split; [|done].
      by rewrite (Terminate_start _ _ _ Hb1), Hlast. }
  destruct Hterm as (blk1' & s' & Hb1' & Hrun & Hem' & Hbl & Hout').
  rewrite Hb1 in Hb1'. injection Hb1' as <-.
  exists s', blk1. split_and!.
  - by rewrite (bind_Done _ _ _ _ _ Hrun1).
  - rewrite <-Hxl. apply (emitted_trans _ _ _ _ _ _ Hem).
    by rewrite <-HllvmBB.
  - by rewrite Hout'.
  - by rewrite Hbl.
  - intros i Hi. rewrite Hi in Hlast. by destruct Hlast.
Qed.

(** ** Terminating a block twice *)


Lemma successor_bb_Some s p bb :
  successor_bb s p = Some bb →
  ∃ x xblk, p = Some x ∧ blocks s !! x = Some xblk ∧ llvmBB xblk = bb.
Proof.
  unfold successor_bb. destruct p as [x|]; [|done]. simpl.
  destruct (blocks s !! x) as [xblk|] eqn:Hx; [|done].
  intros [= <-]. by exists x, xblk.
Qed.

Lemma Terminate_terminator b s blk body i :
  blocks s !! b = Some blk →
  llvm_bbs s !! llvmBB blk = Some body →
  terminator_of s blk = Some i →
  Terminate_emits b s [i] ∧ isTerminator i = true.
Proof.
  intros Hb Hbody. unfold terminator_of.
  destruct (new_rip blk) as [v|] eqn:Hnr.
  - destruct (select_operands s v) as [[[cond t] f]|] eqn:Hsel; [|done].
    simpl. destruct (isa_Constant cond) eqn:Hc.
    + intros Hi.
      assert (∃ bb, successor_bb s (if isNullValue cond
                                    then nextFallThrough blk
                                    else nextBranch blk) = Some bb
                    ∧ i = BranchInst bb) as (bb & Hbb & ->).
      { destruct (isNullValue cond);
          apply fmap_Some in Hi as (bb & ? & ->); by exists bb. }
      destruct (successor_bb_Some _ _ _ Hbb) as (x & xblk & Hx & Hxblk & <-).
      split; [|done].
      by eapply (Terminate_constant b s blk body v cond).
    + intros Hi.
      destruct (successor_bb s (nextBranch blk)) as [bt|] eqn:Hbt; [|done].
      destruct (successor_bb s (nextFallThrough blk)) as [bf|] eqn:Hbf;
        [|done].
      simpl in Hi. injection Hi as <-.
      destruct (successor_bb_Some _ _ _ Hbt) as (br & brblk & Hbr & Hbrblk & <-).
      destruct (successor_bb_Some _ _ _ Hbf) as (ft & ftblk & Hft & Hftblk & <-).
      split; [|done].
      assert (Hu : isa_UndefValue cond = false) by by destruct cond.
      exists blk.
      rewrite (Terminate_select _ _ _ _ _ Hb Hnr Hsel), Hc, Hu, Hbr, Hft.
      rewrite !(bool_decide_eq_true_2 (is_Some (Some _))) by done.
      unfold assert_. cbn [negb andb]. rewrite bind_ret.
      rewrite (bind_Done _ _ _ _ _
                 (successor_llvmBB_run (Some br) br (made_current b blk s)
                    brblk eq_refl Hbrblk)).
      rewrite (bind_Done _ _ _ _ _
                 (successor_llvmBB_run (Some ft) ft (made_current b blk s)
                    ftblk eq_refl Hftblk)).
      unfold CreateCondBr.
      rewrite (bind_Done _ _ _ _ _
                 (Insert_run _ (made_current b blk s) _ body eq_refl Hbody)).
      eexists. split; [done|]. split; [done|]. split; [|done].
      by apply (emitted_one s).
  - intros Hi. apply fmap_Some in Hi as (bb & Hbb & ->).
    destruct (successor_bb_Some _ _ _ Hbb) as (x & xblk & Hx & Hxblk & <-).
    split; [|done]. exists blk.
    rewrite (Terminate_start _ _ _ Hb), Hnr.
    destruct (jump_after_current b s blk body _ x xblk Hb Hbody Hx Hxblk)
      as (s' & Hrun & Hem & Hbl & Hout).
    by exists s'.
Qed.

Lemma select_operands_app s s' v ops new :
  insts s' = insts s ++ new →
  select_operands s v = Some ops → select_operands s' v = Some ops.
Proof.
  intros Hi. unfold select_operands. destruct v; try done.
  match goal with
  | |- context [insts s !! ?n] => destruct (insts s !! n) as [i|] eqn:Hn
  end; [|done].
  by rewrite Hi, (lookup_app_l_Some _ _ _ _ Hn).
Qed.

Lemma terminator_of_app s s' blk new i :
  blocks s' = blocks s → insts s' = insts s ++ new →
  terminator_of s blk = Some i → terminator_of s' blk = Some i.
Proof.
  intros Hbl Hi. unfold terminator_of, successor_bb. rewrite Hbl.
  destruct (new_rip blk) as [v|]; [|done].
  destruct (select_operands s v) as [ops|] eqn:Hsel; [|done].
  by rewrite (select_operands_app _ _ _ _ _ Hi Hsel).
Qed.

(** [Terminate] does not look whether the block already ends in a
    terminator: whenever its decision selects a terminator, a second call
    selects the same one and appends it again, so the LLVM block ends in
    two terminators. *)
Theorem Terminate_twice_appends_two_terminators b s blk body i :
  blocks s !! b = Some blk →
  llvm_bbs s !! llvmBB blk = Some body →
  terminator_of s blk = Some i →
  ∃ s',
    (Terminate b ;;; Terminate b) s = Done tt s' ∧
    emitted s s' (llvmBB blk) [i; i] ∧
    isTerminator i = true ∧
    blocks s' = blocks s.
Proof.
  intros Hb Hbody Hi.
  destruct (Terminate_terminator _ _ _ _ _ Hb Hbody Hi)
    as [(blk0 & s1 & Hb0 & Hrun1 & Hem1 & Hbl1 & _) Hterm].
  rewrite Hb in Hb0. injection Hb0 as <-.
  destruct (emitted_lookup _ _ _ _ Hem1) as [body1 Hbody1].
  assert (Hb1 : blocks s1 !! b = Some blk) by by rewrite Hbl1.
  assert (Hi1 : terminator_of s1 blk = Some i).
  { destruct Hem1 as [Hinsts _]. by eapply terminator_of_app. }
  destruct (Terminate_terminator _ _ _ _ _ Hb1 Hbody1 Hi1)
    as [(blk0 & s2 & Hb0 & Hrun2 & Hem2 & Hbl2 & _) _].
  rewrite Hb1 in Hb0. injection Hb0 as <-.
  exists s2. split_and!.
  - by rewrite (bind_Done _ _ _ _ _ Hrun1).
  - by apply (emitted_trans _ _ _ _ _ _ Hem1 Hem2).
  - done.
  - by rewrite Hbl2.
Qed.

(** ** The further properties on the worked example *)

(** Null successors on the example: no instruction and no edge; a
    fall-through instruction and no edge; a jump with only the
    fall-through edge. *)
Lemma Terminate_null_successor_witness :
  Terminate 0 demo_phis
    = Stop NullDereference
        (made_current 0 (demo_block demo_phis 0) demo_phis) ∧
  Terminate 0 demo_nop_unlinked
    = Stop AssertionFailed
        (made_current 0 (demo_block demo_nop_unlinked 0) demo_nop_unlinked) ∧
  Terminate 0 demo_jump_half_linked
    = Stop NullDereference
        (made_current 0 (demo_block demo_jump_half_linked 0)
           demo_jump_half_linked).
Proof.
  split; [|split].
  - apply (proj1 (Terminate_null_successor 0 demo_phis
                    (demo_block demo_phis 0) eq_refl)); reflexivity.
  - apply (proj1 (proj2 (Terminate_null_successor 0 demo_nop_unlinked
                           (demo_block demo_nop_unlinked 0) eq_refl)
                    (InstRef 21) getFalse (ConstantInt 64 4198403)
                    (ConstantInt 64 4198403) eq_refl eq_refl eq_refl));
      reflexivity.
  - apply (proj2 (proj2 (proj2 (Terminate_null_successor 0
                                  demo_jump_half_linked
                                  (demo_block demo_jump_half_linked 0)
                                  eq_refl)
                           (InstRef 22) getTrue (ConstantInt 64 4198400)
                           (ConstantInt 64 4198403)
                           eq_refl eq_refl eq_refl)));
      [reflexivity|reflexivity|].
    exists 1. reflexivity.
Defined.

(** Edge registration after an instruction was translated: the selector,
    the instructions and the register files stay. *)
Lemma AddBranches_touches_only_edges_witness :
  ∃ s', AddBranches 0 (Some 1) (Some 0) demo_nop_unlinked = Done tt s' ∧
    insts s' = insts demo_nop_unlinked ∧
    llvm_bbs s' = llvm_bbs demo_nop_unlinked ∧
    new_rip <$> blocks s' !! 0 = Some (Some (InstRef 21)) ∧
    regfile <$> blocks s' !! 1 = regfile <$> blocks demo_nop_unlinked !! 1.
Proof.
  destruct (AddBranches_touches_only_edges 0 (Some 1) (Some 0)
              demo_nop_unlinked)
    as (s' & Hrun & Hi & Hbb & _ & _ & _ & _ & Hx).
  - exists (demo_block demo_nop_unlinked 0). reflexivity.
  - intros x [[= <-]|[= <-]].
    + exists (demo_block demo_nop_unlinked 1). reflexivity.
    + exists (demo_block demo_nop_unlinked 0). reflexivity.
  - exists s'. split; [exact Hrun|]. split; [exact Hi|].
    split; [exact Hbb|]. split.
    + exact (proj2 (proj2 (proj2 (proj2 (proj2 (Hx 0)))))).
    + exact (proj1 (proj2 (Hx 1))).
Defined.

(** A second registration on the example: block 0 first names block 1
    and then itself as its taken-branch successor; block 1 keeps block 0
    as a predecessor. *)
Lemma AddBranches_second_call_overrides_witness :
  ∃ s1 s2,
    AddBranches 0 (Some 1) None demo_phis = Done tt s1 ∧
    AddBranches 0 (Some 0) None s1 = Done tt s2 ∧
    nextBranch <$> blocks s2 !! 0 = Some (Some 0) ∧
    preds_of s2 1 = Some [0] ∧
    preds_of s2 0 = Some [0].
Proof.
  destruct (AddBranches_second_call_overrides 0 (Some 1) None (Some 0) None
              demo_phis)
    as (s1 & s2 & H1 & H2 & Hp & Hnb & _).
  - exists (demo_block demo_phis 0). reflexivity.
  - intros x [[= <-]|[[=]|[[= <-]|[=]]]].
    + exists (demo_block demo_phis 1). reflexivity.
    + exists (demo_block demo_phis 0). reflexivity.
  - exists s1, s2. split; [exact H1|]. split; [exact H2|].
    rewrite Hnb, !Hp. split; [|split]; reflexivity.
Defined.

(** Backfill run twice on the example: the placeholder of the 32-bit
    facet of the first register has each input twice. *)
Lemma FillPhis_twice_duplicates_inputs_witness :
  ∃ s1 s2,
    FillPhis demo_flags 0 demo_linked = Done tt s1 ∧
    FillPhis demo_flags 0 s1 = Done tt s2 ∧
    insts s2 !! 1
      = Some (PHINode (IntTy 32)
                [(InstRef 1, 0); (InstRef 11, 1);
                 (InstRef 1, 0); (InstRef 11, 1)]).
Proof.
  destruct (FillPhis_twice_duplicates_inputs demo_flags 0 demo_linked
              (demo_block demo_linked 0))
    as (s1 & s2 & H1 & H2 & _).
  - reflexivity.
  - by_computation.
  - by_computation.
  - by_computation.
  - exists s1, s2. split; [exact H1|]. split; [exact H2|].
    vm_compute in H1. injection H1 as <-.
    vm_compute in H2. injection H2 as <-. reflexivity.
Defined.

(** Backfill of a block without predecessors, and of a block whose
    placeholders were never created. *)
Lemma FillPhis_without_predecessors_or_placeholders_witness :
  FillPhis demo_flags 0 demo_phis = Done tt (set_state_regfile None demo_phis) ∧
  FillPhis demo_flags 0 demo_unfilled
    = Stop BadCast (set_state_regfile None demo_unfilled).
Proof.
  split.
  - apply (proj1 (FillPhis_without_predecessors_or_placeholders demo_flags 0
                    demo_phis (demo_block demo_phis 0) eq_refl)).
    reflexivity.
  - apply (proj2 (FillPhis_without_predecessors_or_placeholders demo_flags 0
                    demo_unfilled (demo_block demo_unfilled 0) eq_refl)
             0 [] Facet.I64 [(Facet.I32, None)]); reflexivity.
Defined.

(** Placeholder creation run twice on the example. *)
Lemma AddPhis_twice_orphans_first_nodes_witness :
  ∃ s1 s2 blk2,
    AddPhis demo_flags 0 demo_created = Done tt s1 ∧
    AddPhis demo_flags 0 s1 = Done tt s2 ∧
    blocks s2 !! 0 = Some blk2 ∧
    placeholder blk2 (SlotReg (mkLLReg LL_RT_GP64 0) Facet.I32)
      = Some (InstRef 11) ∧
    RegFile.GetReg (regfile blk2) (mkLLReg LL_RT_GP64 0) Facet.I32
      = Some (InstRef 11) ∧
    insts s2 !! 1 = Some (PHINode (IntTy 32) []).
Proof.
  destruct (AddPhis_twice_orphans_first_nodes demo_flags 0 demo_created
              (demo_block demo_created 0) (demo_body demo_created 0))
    as (s1 & s2 & blk2 & H1 & H2 & Hb & _ & Hpos).
  - reflexivity.
  - reflexivity.
  - by_computation.
  - exists s1, s2, blk2.
    split; [exact H1|]. split; [exact H2|]. split; [exact Hb|].
    split; [|split].
    + exact (proj1 (Hpos 1 (SlotReg (mkLLReg LL_RT_GP64 0) Facet.I32)
                      eq_refl)).
    + exact (proj1 (proj2 (Hpos 1 (SlotReg (mkLLReg LL_RT_GP64 0) Facet.I32)
                             eq_refl))).
    + exact (proj2 (proj2 (Hpos 1 (SlotReg (mkLLReg LL_RT_GP64 0) Facet.I32)
                             eq_refl))).
Defined.

(** The four phases on block 0 of the example, its own fall-through
    successor. *)
Lemma self_loop_placeholders_feed_themselves_witness :
  ∃ s',
    (AddPhis demo_flags 0 ;;; AddBranches 0 None (Some 0) ;;;
     Terminate 0 ;;; FillPhis demo_flags 0) demo_created = Done tt s' ∧
    length (insts s') = 11 ∧
    insts s' !! 10 = Some (BranchInst 0) ∧
    insts s' !! 1 = Some (PHINode (IntTy 32) [(InstRef 1, 0)]).
Proof.
  destruct (self_loop_placeholders_feed_themselves demo_flags 0 demo_created
              (demo_block demo_created 0) (demo_body demo_created 0))
    as (s' & Hrun & _ & Hlen & Hbr & Hpos).
  - reflexivity.
  - reflexivity.
  - by_computation.
  - reflexivity.
  - reflexivity.
  - exists s'. split; [exact Hrun|]. split; [exact Hlen|].
    split; [exact Hbr|].
    exact (Hpos 1 (SlotReg (mkLLReg LL_RT_GP64 0) Facet.I32) eq_refl).
Defined.

(** Two fall-through instructions on block 0 of the example. *)
Lemma straight_line_block_falls_through_witness :
  ∃ s' blk',
    (for_ [demo_instr 0; demo_instr 0] (AddInst demo_opcodes 0) ;;;
     Terminate 0) demo_linked = Done tt s' ∧
    emitted demo_linked s' 0
      [CallInst donothing;
       SelectInst getFalse (ConstantInt 64 4198403) (ConstantInt 64 4198403);
       CallInst donothing;
       SelectInst getFalse (ConstantInt 64 4198403) (ConstantInt 64 4198403);
       BranchInst 0] ∧
    blocks s' !! 0 = Some blk' ∧
    RegFile.GetReg (regfile blk') (mkLLReg LL_RT_IP 0) Facet.I64
      = Some (ConstantInt 64 4198403).
Proof.
  destruct (straight_line_block_falls_through demo_opcodes 0 demo_linked
              (demo_block demo_linked 0) (demo_body demo_linked 0)
              [demo_instr 0; demo_instr 0] 0 (demo_block demo_linked 0))
    as (s' & blk' & Hrun & Hem & _ & Hb & Hip).
  - reflexivity.
  - reflexivity.
  - repeat constructor; exists demo_handler_nop;
      (split; [reflexivity|intros s; reflexivity]).
  - intros [=].
  - reflexivity.
  - reflexivity.
  - exists s', blk'. split; [exact Hrun|]. split; [exact Hem|].
    split; [exact Hb|]. exact (Hip (demo_instr 0) eq_refl).
Defined.

(** [Terminate] twice on block 0 of the example after a jump. *)
Lemma Terminate_twice_appends_two_terminators_witness :
  ∃ s',
    (Terminate 0 ;;; Terminate 0) demo_jump = Done tt s' ∧
    emitted demo_jump s' 0 [BranchInst 1; BranchInst 1].
Proof.
  destruct (Terminate_twice_appends_two_terminators 0 demo_jump
              (demo_block demo_jump 0) (demo_body demo_jump 0)
              (BranchInst 1))
    as (s' & Hrun & Hem & _).
  - reflexivity.
  - reflexivity.
  - reflexivity.
  - exists s'. split; [exact Hrun|exact Hem].
Defined.

(** The placeholders of block 0 of the example after [AddPhis]. *)
Lemma AddPhis_placeholders_fresh_witness :
  ∃ s' blk',
    AddPhis demo_flags 0 demo_created = Done tt s' ∧
    blocks s' !! 0 = Some blk' ∧
    preds blk' = [] ∧
    placeholders_fresh demo_flags s' blk'.
Proof.
  destruct (AddPhis_placeholders_fresh demo_flags 0 demo_created
              (demo_block demo_created 0) (demo_body demo_created 0))
    as (s' & blk' & Hrun & Hb & _ & _ & Hpreds & Hfresh).
  - reflexivity.
  - reflexivity.
  - by_computation.
  - exists s', blk'. split; [exact Hrun|]. split; [exact Hb|].
    split; [exact Hpreds|exact Hfresh].
Defined.
